(** * alpaka: the OpenMP accelerator, its index arithmetic and its dispatch loop

    A shallow embedding of
    - [src/include/alpaka/AccOpenMp.hpp]: [IndexOpenMp], [AtomicOp] for
      [AtomicOpenMp], [AccOpenMp] (barrier, block shared memory) and
      [AccOpenMp::KernelExecutor::operator()];
    - the two default pitch computations of
      [src/include/alpaka/traits/mem/View.hpp] and
      [src/include/alpaka/mem/view/Traits.hpp].

    Unsigned 32-bit values are integers of [Z] with the wrap-around written
    out.  The threads of an OpenMP team are run by a small machine that is
    driven by a schedule: every statement about a parallel region is proved
    for every schedule, that is for every interleaving. *)

From Stdlib Require Import String.
From Stdlib Require Import ZArith Lia List.
From stdpp Require Import base list.
From Equations Require Import Equations.

Local Open Scope Z_scope.

(* ===================================================================== *)
(** * Part I: definitions *)
(* ===================================================================== *)

(** ** Machine integers and [vec<3u>] *)

(** [vec<3u>] holds three [std::uint32_t]: [getSizeBlockKernelsMax] builds one
    from [std::uint32_t] values by list initialisation, the dispatch loop
    stores its [std::uint32_t] counters into one, and its variables are named
    [v3ui...] as the [std::uint32_t] ones are named [ui...]. *)
Record vec3 := Vec3 { at0 : Z; at1 : Z; at2 : Z }.

Definition to_uint32 (z : Z) : Z := z mod 2 ^ 32.

Definition mul_uint32 (a b : Z) : Z := to_uint32 (a * b).

Definition INT_MAX : Z := 2 ^ 31 - 1.

Definition set_at0 (v : vec3) (x : Z) : vec3 := Vec3 x (at1 v) (at2 v).
Definition set_at1 (v : vec3) (x : Z) : vec3 := Vec3 (at0 v) x (at2 v).
Definition set_at2 (v : vec3) (x : Z) : vec3 := Vec3 (at0 v) (at1 v) x.

Definition prod3 (v : vec3) : Z := at0 v * at1 v * at2 v.

(** ** The work division *)

(** Modelled from the spec: [WorkSize.hpp] ([IWorkSize], [WorkSizeDefault]) is
    not among the sources.  The spec's WorkDivision is the pair
    [{gridBlockExtent, blockThreadExtent}]; [getSize<Block, Kernels, Linear>]
    is the spec's [product(blockThreadExtent)]. *)
Record WorkSize := MkWorkSize { gridBlockExtent : vec3; blockThreadExtent : vec3 }.

Definition getSize_Grid_Blocks_D3 (w : WorkSize) : vec3 := gridBlockExtent w.
Definition getSize_Block_Kernels_D3 (w : WorkSize) : vec3 := blockThreadExtent w.
Definition getSize_Block_Kernels_Linear (w : WorkSize) : Z := prod3 (blockThreadExtent w).

(** ** [IndexOpenMp::getIdxBlockKernel] (AccOpenMp.hpp, lines 76-87) *)

(** [t] is the [int] returned by [omp_get_thread_num()]; in [t % (s[1] * s[0])]
    it is converted to [unsigned] and the product is a 32-bit product.  A zero
    divisor is undefined behaviour: [None]. *)
Definition getIdxBlockKernel (v3uiSizeBlockKernels : vec3) (t : Z) : option vec3 :=
  let m := mul_uint32 (at1 v3uiSizeBlockKernels) (at0 v3uiSizeBlockKernels) in
  let tu := to_uint32 t in
  if (m =? 0) || (at0 v3uiSizeBlockKernels =? 0) then None
  else Some (Vec3 ((tu mod m) mod at0 v3uiSizeBlockKernels)
                  ((tu mod m) / at0 v3uiSizeBlockKernels)
                  (tu / m)).

(** The spec's words (section 4.2): [coord = (t mod e0, (t/e0) mod e1, t/(e0*e1))]. *)
Definition delinearization_rule (e : vec3) (t : Z) : vec3 :=
  Vec3 (t mod at0 e) ((t / at0 e) mod at1 e) (t / (at0 e * at1 e)).

(** Modelled from the spec: no source file linearizes a coordinate.  The
    spec's convention has x fastest, so the linear index of [c] in [e] is
    [c0 + e0 * (c1 + e1 * c2)]. *)
Definition linearize (c e : vec3) : Z := at0 c + at0 e * (at1 c + at1 e * at2 c).

Definition valid_coord (c e : vec3) : Prop :=
  0 <= at0 c < at0 e /\ 0 <= at1 c < at1 e /\ 0 <= at2 c < at2 e.

(** ** Schedules *)

(** A machine of [size s] threads, each advanced by [step i]; [step i s = None]
    when thread [i] cannot move.  The schedule picks, at every step, one of the
    threads that can move: any interleaving is the run of some schedule. *)
Section Scheduler.
Context {St : Type}.
Variable step : nat -> St -> option St.
Variable size : St -> nat.

Definition enabled (s : St) : list nat :=
  filter (fun i => bool_decide (is_Some (step i s))) (seq 0 (size s)).

Fixpoint run_sched (fuel : nat) (sched : list nat) (s : St) : St :=
  match fuel with
  | O => s
  | S fuel' =>
      match enabled s with
      | [] => s
      | i0 :: en =>
          let i := nth (hd 0%nat sched mod length (i0 :: en)) (i0 :: en) i0 in
          match step i s with
          | Some s' => run_sched fuel' (tl sched) s'
          | None => s
          end
      end
  end.
End Scheduler.

(** ** The threads of one block *)

(** [m_vvuiSharedMem] is a [std::vector<std::vector<uint8_t>>]: a segment is a
    list of bytes.  The data pointer of a segment is named by the position of
    the segment in the list: [emplace_back] moves the inner vectors, which
    keeps their buffers. *)
Definition segment := list Z.
Definition data_ptr := nat.

(** What a thread executes inside the parallel region, as far as the
    accelerator sees it. *)
Inductive instr :=
| IKernelEnter           (* this->TAcceleratedKernel::operator()(args...) is entered *)
| IBarrier               (* #pragma omp barrier *)
| IEmplaceBack (n : Z)   (* if(omp_get_thread_num() == 0) m_vvuiSharedMem.emplace_back(n) *)
| IBack.                 (* return m_vvuiSharedMem.back().data() *)

#[global] Instance instr_eq_dec : EqDecision instr.
Proof. solve_decision. Defined.

(** [back()] of an empty vector is undefined behaviour: [None]. *)
Definition back_data (mem : list segment) : option data_ptr :=
  match mem with [] => None | _ => Some (length mem - 1)%nat end.

(** The segments a piece of code emplaces ([std::vector<uint8_t>(n)]: [n]
    zero bytes). *)
Definition segs_of (c : list instr) : list segment :=
  flat_map (fun ins => match ins with
                       | IEmplaceBack n => [replicate (Z.to_nat n) 0]
                       | _ => []
                       end) c.

(** Every instruction other than a barrier is followed by a barrier or ends
    the code. *)
Definition isolated (code : list instr) : Prop :=
  forall k x, code !! k = Some x -> x <> IBarrier ->
    code !! S k = Some IBarrier \/ code !! S k = None.

Fixpoint isolatedb (c : list instr) : bool :=
  match c with
  | [] => true
  | x :: r =>
      match r with
      | [] => true
      | y :: _ => (bool_decide (x = IBarrier) || bool_decide (y = IBarrier)) && isolatedb r
      end
  end.

Section Team.
Context {Args : Type}.

(** What a thread observes.  [EvKernel]: the thread enters the kernel body;
    [gridBlockIdx] is what [getIdxGridBlock] gives during the invocation,
    [blockKernelIdx] what [getIdxBlockKernel] would give this thread if the
    kernel asked for it ([operator()] itself does not call it), and [args]
    names the pack of [operator()] that line 361 passes through
    [std::forward] again for every thread of every block.  The state of the
    pack is not modelled: an argument given as an rvalue may have been moved
    from by an earlier invocation, and nothing here says what a later one
    finds in it. *)
Inductive event :=
| EvKernel (gridBlockIdx : vec3) (blockKernelIdx : option vec3) (args : Args)
| EvBarrier
| EvEmplaceBack (n : Z)
| EvBack (p : option data_ptr).

Record thread := Thread { th_pc : nat; th_waiting : bool; th_log : list event }.

Record team := Team { tm_mem : list segment; tm_threads : list thread }.

(** One parallel region: the code every thread runs, and what [getIdx] reads. *)
Record region := Region {
  rg_code : list instr;
  rg_gridBlockIdx : vec3;
  rg_sizeBlockKernels : vec3;
  rg_args : Args }.

Variable rg : region.

Definition instr_mem (i : nat) (ins : instr) (mem : list segment) : list segment :=
  match ins with
  | IEmplaceBack n => if Nat.eqb i 0 then mem ++ [replicate (Z.to_nat n) 0] else mem
  | _ => mem
  end.

Definition instr_events (i : nat) (ins : instr) (mem : list segment) : list event :=
  match ins with
  | IKernelEnter =>
      [EvKernel (rg_gridBlockIdx rg)
                (getIdxBlockKernel (rg_sizeBlockKernels rg) (Z.of_nat i))
                (rg_args rg)]
  | IBarrier => [EvBarrier]
  | IEmplaceBack n => if Nat.eqb i 0 then [EvEmplaceBack n] else []
  | IBack => [EvBack (back_data mem)]
  end.

Definition arrive (th : thread) : thread := Thread (th_pc th) true (th_log th).

Definition release (th : thread) : thread :=
  Thread (S (th_pc th)) false (th_log th ++ [EvBarrier]).

(** Thread [i] executes its next instruction.  At a barrier it arrives and
    waits; the arrival of the last thread releases the whole team. *)
Definition step (i : nat) (tm : team) : option team :=
  match tm_threads tm !! i with
  | None => None
  | Some th =>
      match rg_code rg !! th_pc th with
      | None => None
      | Some IBarrier =>
          if th_waiting th then None
          else
            let ths := <[i := arrive th]> (tm_threads tm) in
            if forallb th_waiting ths
            then Some (Team (tm_mem tm) (release <$> ths))
            else Some (Team (tm_mem tm) ths)
      | Some ins =>
          Some (Team (instr_mem i ins (tm_mem tm))
                     (<[i := Thread (S (th_pc th)) false
                                    (th_log th ++ instr_events i ins (tm_mem tm))]>
                        (tm_threads tm)))
      end
  end.

Definition run_team (fuel : nat) (sched : list nat) (tm : team) : team :=
  run_sched step (fun tm => length (tm_threads tm)) fuel sched tm.

Definition team_init (n : nat) (mem0 : list segment) : team :=
  Team mem0 (replicate n (Thread 0 false [])).

Definition team_done (tm : team) : bool :=
  forallb (fun th => length (rg_code rg) <=? th_pc th)%nat (tm_threads tm).

(** The log of thread [i] once it has run [c], started with the segments [mem]. *)
Fixpoint log_of (i : nat) (mem : list segment) (c : list instr) : list event :=
  match c with
  | [] => []
  | ins :: c' => instr_events i ins mem ++ log_of i (mem ++ segs_of [ins]) c'
  end.

Definition team_final (n : nat) (mem0 : list segment) : team :=
  Team (mem0 ++ segs_of (rg_code rg))
       ((fun i => Thread (length (rg_code rg)) false (log_of i mem0 (rg_code rg)))
          <$> seq 0 n).

(** Invariant of the runs of a team, for code that is [isolated]: all threads
    are at position [s] or just behind the instruction at [s]. *)
Definition thread_ok (mem0 : list segment) (s i : nat) (th : thread) : Prop :=
  (th_pc th = s \/ (th_pc th = S s /\ exists x, rg_code rg !! s = Some x /\ x <> IBarrier)) /\
  (th_pc th <= length (rg_code rg))%nat /\
  (th_waiting th = true -> rg_code rg !! th_pc th = Some IBarrier) /\
  th_log th = log_of i mem0 (take (th_pc th) (rg_code rg)).

Definition team_inv (mem0 : list segment) (tm : team) : Prop :=
  exists s,
    (forall i th, tm_threads tm !! i = Some th -> thread_ok mem0 s i th) /\
    (exists th0, tm_threads tm !! 0%nat = Some th0 /\
                 tm_mem tm = mem0 ++ segs_of (take (th_pc th0) (rg_code rg))) /\
    (exists i th, tm_threads tm !! i = Some th /\ th_waiting th = false).

Definition weight (th : thread) : nat :=
  (2 * (length (rg_code rg) - th_pc th) + (if th_waiting th then 0 else 1))%nat.

Definition measure (tm : team) : nat := sum_list_with weight (tm_threads tm).
End Team.

(** ** Kernels, as the accelerator sees them *)

(** A kernel body reaches the accelerator through the protected members of
    [AccOpenMp]: the calls it makes, in order, are what matters here.  Every
    thread of a block makes the same calls (section 4.4 of the spec: anything
    else is undefined behaviour). *)
Inductive kcall :=
| KSync                                   (* syncBlockKernels() *)
| KAlloc (sizeofT : Z) (UiNumElements : Z). (* allocBlockSharedMem<T, UiNumElements>() *)

(** [AccOpenMp::syncBlockKernels] (lines 235-238). *)
Definition syncBlockKernels : list instr := [IBarrier].

(** [AccOpenMp::allocBlockSharedMem] (lines 243-258), after its static
    assertion.  [emplace_back(UiNumElements)] does not depend on [T]. *)
Definition allocBlockSharedMem (sizeofT UiNumElements : Z) : list instr :=
  syncBlockKernels ++ [IEmplaceBack UiNumElements] ++ syncBlockKernels ++ [IBack].

Definition call_code (c : kcall) : list instr :=
  match c with
  | KSync => syncBlockKernels
  | KAlloc sizeofT n => allocBlockSharedMem sizeofT n
  end.

Definition kernel_code (calls : list kcall) : list instr := flat_map call_code calls.

(** The body of the parallel region (lines 353-365): the kernel, then the
    barrier before the shared memory may be deleted. *)
Definition region_code (calls : list kcall) : list instr :=
  IKernelEnter :: kernel_code calls ++ syncBlockKernels.

(** Template instantiation: it either builds or stops at a static assertion. *)
Inductive build (A : Type) :=
| Built (a : A)
| StaticAssertFailed (msg : string).
Arguments Built {A} a.
Arguments StaticAssertFailed {A} msg.

(** Line 246: [static_assert(UiNumElements > 0, ...)]. *)
Definition allocBlockSharedMem_instantiate (sizeofT UiNumElements : Z) : build (list instr) :=
  if 0 <? UiNumElements
  then Built (allocBlockSharedMem sizeofT UiNumElements)
  else StaticAssertFailed
         "The number of elements to allocate in block shared memory must not be zero!".

Definition call_instantiate (c : kcall) : build (list instr) :=
  match c with
  | KSync => Built syncBlockKernels
  | KAlloc sizeofT n => allocBlockSharedMem_instantiate sizeofT n
  end.

(** A buffer of bytes can hold [n] elements of a type of size [sizeofT]. *)
Definition segment_holds (seg : segment) (sizeofT n : Z) : Prop :=
  n * sizeofT <= Z.of_nat (length seg).

(** The threads of one block call [allocBlockSharedMem<T, UiNumElements>]. *)
Definition collective_alloc {Args : Type} (gc b : vec3) (args : Args) (sched : list nat)
    (n : nat) (sizeofT UiNumElements : Z) (mem : list segment) : @team Args :=
  let rg := Region (allocBlockSharedMem sizeofT UiNumElements) gc b args in
  run_team rg (n * (2 * length (rg_code rg) + 1)) sched (team_init n mem).

(** ** The OpenMP runtime *)

(** [omp_max_threads]: what [omp_get_max_threads()] returns after
    [omp_set_num_threads(1024)].  [omp_team_size n]: the number of threads
    that execute [#pragma omp parallel num_threads(n)] once dynamic adjustment
    is off. *)
Record OmpRuntime := MkOmp { omp_max_threads : Z; omp_team_size : Z -> nat }.

(** The runtimes the executor counts on: a [num_threads] request within the
    reported maximum is served exactly (OpenMP grants this, with dynamic
    adjustment off, only while that many threads are available, and the
    executor does not check the size of the team it gets), and a parallel
    region is always executed by a team of at least one thread (the
    encountering thread is its thread 0). *)
Definition omp_conforming (rt : OmpRuntime) : Prop :=
  1 <= omp_max_threads rt <= INT_MAX /\
  (forall n, 1 <= n <= omp_max_threads rt -> omp_team_size rt n = Z.to_nat n) /\
  (forall n, (1 <= omp_team_size rt n)%nat).

(** ** [AccOpenMp] and its [KernelExecutor] *)

Record AccOpenMp := MkAcc {
  m_WorkSize : WorkSize;
  m_v3uiGridBlockIdx : vec3;
  m_vvuiSharedMem : list segment;
  m_vuiExternalSharedMem : segment }.

(** [IndexOpenMp::getIdxGridBlock] (lines 91-94). *)
Definition getIdxGridBlock (a : AccOpenMp) : vec3 := m_v3uiGridBlockIdx a.

(** The [std::runtime_error] of line 319; its message prints both numbers. *)
Record runtime_error := MkError { err_blockSize : Z; err_maximum : Z }.

Definition zrange (n : Z) : list Z := map Z.of_nat (seq 0 (Z.to_nat n)).

(** [for(std::uint32_t b(0); b<n; ++b) body]. *)
Definition for_uint32 {St : Type} (n : Z) (body : Z -> St -> St) (s : St) : St :=
  fold_left (fun s b => body b s) (zrange n) s.

(** [std::vector<uint8_t>::resize]. *)
Definition resize (n : Z) (v : segment) : segment :=
  take (Z.to_nat n) v ++ replicate (Z.to_nat n - length v) 0.

Section Executor.
Context {Args : Type}.

(** [TAcceleratedKernel]: the calls of its [operator()] and its
    [BlockSharedExternMemSizeBytes]. *)
Record Kernel := MkKernel {
  k_calls : Args -> vec3 -> list kcall;
  k_BlockSharedExternMemSizeBytes : vec3 -> Z }.

(** What happened in one iteration of the innermost loop. *)
Record block_record := MkBlock {
  br_block : vec3;                        (* the loop counters (bx, by, bz) *)
  br_numThreads : nat;
  br_before : list segment;               (* m_vvuiSharedMem when the block starts *)
  br_logs : list (list (@event Args));    (* one log per thread *)
  br_after : list segment }.              (* m_vvuiSharedMem when the block ends *)

(** The accelerator, the two OpenMP control variables the executor sets, and
    the record of the blocks run so far. *)
Record exec_state := MkState {
  st_acc : AccOpenMp;
  st_nthreads_var : Z;
  st_dyn_var : bool;
  st_trace : list block_record }.

Inductive outcome :=
| Returned (st : exec_state)
| Thrown (e : runtime_error) (st : exec_state).

Definition kernel_builds (k : Kernel) : Prop :=
  forall a g c, In c (k_calls k a g) -> exists code, call_instantiate c = Built code.

Variable rt : OmpRuntime.
Variable kernel : Kernel.
Variable oracle : vec3 -> list nat.

(** [AccOpenMp::getSizeBlockKernelsLinearMax] (lines 211-219). *)
Definition getSizeBlockKernelsLinearMax (st : exec_state) : Z * exec_state :=
  let st' := MkState (st_acc st) 1024 (st_dyn_var st) (st_trace st) in
  (to_uint32 (omp_max_threads rt), st').

(** [#pragma omp parallel num_threads(num_threads)] over the region [rg]. *)
Definition omp_parallel (sched : list nat) (num_threads : Z) (rg : @region Args)
    (mem : list segment) : team :=
  let n := omp_team_size rt num_threads in
  run_team rg (n * (2 * length (rg_code rg) + 1)) sched (team_init n mem).

Definition set_idx (f : vec3 -> vec3) (st : exec_state) : exec_state :=
  let a := st_acc st in
  MkState (MkAcc (m_WorkSize a) (f (m_v3uiGridBlockIdx a)) (m_vvuiSharedMem a)
                 (m_vuiExternalSharedMem a))
          (st_nthreads_var st) (st_dyn_var st) (st_trace st).

(** The body of the innermost loop (lines 340-365).  Every block is handed
    the one pack [args] of [operator()]; see [event] for what that leaves
    out. *)
Definition run_block (args : Args) (bz by_ bx : Z) (st0 : exec_state) : exec_state :=
  let st := set_idx (fun v => set_at0 v bx) st0 in
  let a := st_acc st in
  let uiNumKernelsInBlock := to_uint32 (getSize_Block_Kernels_Linear (m_WorkSize a)) in
  let idx := getIdxGridBlock a in
  let rg := Region (region_code (k_calls kernel args idx)) idx
                   (getSize_Block_Kernels_D3 (m_WorkSize a)) args in
  let tm := omp_parallel (oracle idx) uiNumKernelsInBlock rg (m_vvuiSharedMem a) in
  MkState (MkAcc (m_WorkSize a) (m_v3uiGridBlockIdx a) (tm_mem tm) (m_vuiExternalSharedMem a))
          (st_nthreads_var st) false
          (st_trace st ++ [MkBlock (Vec3 bx by_ bz) (length (tm_threads tm))
                                   (m_vvuiSharedMem a) (th_log <$> tm_threads tm)
                                   (tm_mem tm)]).

(** The three loops (lines 332-368). *)
Definition dispatch (args : Args) (v3uiSizeGridBlocks : vec3) (st : exec_state) : exec_state :=
  for_uint32 (at2 v3uiSizeGridBlocks) (fun bz st =>
    for_uint32 (at1 v3uiSizeGridBlocks) (fun by_ st =>
      for_uint32 (at0 v3uiSizeGridBlocks) (fun bx st => run_block args bz by_ bx st)
        (set_idx (fun v => set_at1 v by_) st))
      (set_idx (fun v => set_at2 v bz) st)) st.

(** [KernelExecutor::operator()] (lines 307-376). *)
Definition KernelExecutor_call (workSize : WorkSize) (args : Args) (st0 : exec_state)
    : outcome :=
  let a0 := st_acc st0 in
  let st1 := MkState (MkAcc workSize (m_v3uiGridBlockIdx a0) (m_vvuiSharedMem a0)
                            (m_vuiExternalSharedMem a0))
                     (st_nthreads_var st0) (st_dyn_var st0) (st_trace st0) in
  let uiNumKernelsPerBlock := getSize_Block_Kernels_Linear (m_WorkSize (st_acc st1)) in
  let '(uiMaxKernelsPerBlock, st2) := getSizeBlockKernelsLinearMax st1 in
  if uiMaxKernelsPerBlock <? uiNumKernelsPerBlock
  then Thrown (MkError uiNumKernelsPerBlock uiMaxKernelsPerBlock) st2
  else
    let a2 := st_acc st2 in
    let v3uiSizeBlockKernels := getSize_Block_Kernels_D3 (m_WorkSize a2) in
    let st3 := MkState (MkAcc (m_WorkSize a2) (m_v3uiGridBlockIdx a2) (m_vvuiSharedMem a2)
                  (resize (k_BlockSharedExternMemSizeBytes kernel v3uiSizeBlockKernels)
                          (m_vuiExternalSharedMem a2)))
                  (st_nthreads_var st2) (st_dyn_var st2) (st_trace st2) in
    let v3uiSizeGridBlocks := getSize_Grid_Blocks_D3 (m_WorkSize (st_acc st3)) in
    let st4 := dispatch args v3uiSizeGridBlocks st3 in
    let a4 := st_acc st4 in
    Returned (MkState (MkAcc (m_WorkSize a4) (m_v3uiGridBlockIdx a4) [] [])
                      (st_nthreads_var st4) (st_dyn_var st4) (st_trace st4)).
End Executor.

(** ** What a launch did *)

(** The coordinates of an extent, in the order of the loops: x fastest. *)
Definition all_coords (e : vec3) : list vec3 :=
  flat_map (fun z => flat_map (fun y => map (fun x => Vec3 x y z) (zrange (at0 e)))
                              (zrange (at1 e)))
           (zrange (at2 e)).

Section Observations.
Context {Args : Type}.

Definition kernel_events (log : list (@event Args)) : list (vec3 * option vec3 * Args) :=
  flat_map (fun e => match e with EvKernel g b a => [(g, b, a)] | _ => [] end) log.

Definition emplace_events (log : list (@event Args)) : list Z :=
  flat_map (fun e => match e with EvEmplaceBack n => [n] | _ => [] end) log.

Definition block_invocations (br : @block_record Args) : list (vec3 * option vec3 * Args) :=
  flat_map kernel_events (br_logs br).

(** The invocations of the kernel body: the grid-block index and the
    block-thread index the invoked thread reads, and the arguments it gets. *)
Definition invocations (tr : list (@block_record Args)) : list (vec3 * option vec3 * Args) :=
  flat_map block_invocations tr.

(** [chain m tr m']: the blocks of [tr] ran one after the other from the
    segments [m] to the segments [m']; each block starts with the segments
    its predecessor ended with and only appends. *)
Inductive chain : list segment -> list (@block_record Args) -> list segment -> Prop :=
| chain_nil m : chain m [] m
| chain_cons m br tr m' new :
    br_before br = m -> br_after br = m ++ new -> chain (br_after br) tr m' ->
    chain m (br :: tr) m'.

(** Discarding a block's segments when the block ends: every block starts with the
    segments the launch started with. *)
Definition discards_between_blocks (m0 : list segment) (tr : list (@block_record Args)) : Prop :=
  Forall (fun br => br_before br = m0) tr.

Variable rt : OmpRuntime.
Variable kernel : @Kernel Args.
Variable ws : WorkSize.
Variable args : Args.

(** The blocks of a launch, whatever the schedule (see [dispatch_dispatched]). *)
Definition block_region (gc : vec3) : @region Args :=
  Region (region_code (k_calls kernel args gc)) gc (getSize_Block_Kernels_D3 ws) args.

Definition block_team : nat :=
  omp_team_size rt (to_uint32 (getSize_Block_Kernels_Linear ws)).

Definition block_record_of (gc : vec3) (mem : list segment) : @block_record Args :=
  let rg := block_region gc in
  MkBlock gc block_team mem
          (map (fun i => log_of rg i mem (rg_code rg)) (seq 0 block_team))
          (mem ++ segs_of (rg_code rg)).

Fixpoint blocks_trace (mem : list segment) (cs : list vec3) : list (@block_record Args) :=
  match cs with
  | [] => []
  | gc :: r =>
      let br := block_record_of gc mem in
      br :: blocks_trace (br_after br) r
  end.

Fixpoint blocks_mem (mem : list segment) (cs : list vec3) : list segment :=
  match cs with
  | [] => mem
  | gc :: r => blocks_mem (mem ++ segs_of (rg_code (block_region gc))) r
  end.

(** What the loops have done once the blocks [cs] have been processed. *)
Definition dispatched (st0 : @exec_state Args) (cs : list vec3) (st : exec_state) : Prop :=
  m_WorkSize (st_acc st) = ws /\
  m_vuiExternalSharedMem (st_acc st) = m_vuiExternalSharedMem (st_acc st0) /\
  st_nthreads_var st = st_nthreads_var st0 /\
  m_vvuiSharedMem (st_acc st) = blocks_mem (m_vvuiSharedMem (st_acc st0)) cs /\
  st_trace st = st_trace st0 ++ blocks_trace (m_vvuiSharedMem (st_acc st0)) cs.
End Observations.

(** ** [AtomicOp<AtomicOpenMp, TOp, T>::atomicOp] (lines 153-175) *)

(** Both variants of the source guard [TOp::op(addr, value)] by one mutual
    exclusion region: the lock [m_ompLock] of the accelerator, or the critical
    section named [AtomicOp].  Concurrent invocations on one address are run by
    a machine with one cell and one lock. *)
Section Atomic.
Context {T : Type}.

(** Modelled from the spec: [TOp::op] is declared in [Atomic.hpp], which is
    not among the sources.  Section 4.3 of the spec: it applies an operator to
    the value at the address, stores the result and returns the prior value
    ([atomicOp] names what it gets back [old]).  An invocation is its operator
    and its operand, [inv_op old value] is the result; in [astep] the load and
    the store of [TOp::op] are two steps. *)
Record invocation := Invocation { inv_op : T -> T -> T; inv_value : T }.

Definition apply_inv (c : invocation) (old : T) : T := inv_op c old (inv_value c).

(** The cell after the invocations [cs], one after the other. *)
Definition apply_all (cs : list invocation) (a : T) : T :=
  fold_left (fun a c => apply_inv c a) cs a.

Inductive apc :=
| ANotCalled              (* atomicOp has not been called yet *)
| AAtLock                 (* at omp_set_lock / at the entry of the critical section *)
| AAtLoad                 (* inside: about to read *addr *)
| AAtStore (old : T)      (* inside: about to store op old value *)
| AAtUnlock (old : T)     (* at omp_unset_lock / at the exit; then return old *)
| AReturned (old : T).

(** [at_before]: the invocations that had returned when this one was called. *)
Record athread := AThread { at_call : invocation; at_pc : apc; at_before : list nat }.

Record lin_entry := LinEntry { le_thread : nat; le_call : invocation; le_prior : T }.

(** [as_order]: the invocations that have returned, in the order in which they
    left the mutual exclusion region. *)
Record astate := AState {
  as_lock : option nat;
  as_cell : T;
  as_threads : list athread;
  as_order : list lin_entry }.

Definition astep (i : nat) (st : astate) : option astate :=
  match as_threads st !! i with
  | None => None
  | Some th =>
      let at_ pc := <[i := AThread (at_call th) pc (at_before th)]> (as_threads st) in
      match at_pc th with
      | ANotCalled =>
          Some (AState (as_lock st) (as_cell st)
                  (<[i := AThread (at_call th) AAtLock (map le_thread (as_order st))]>
                     (as_threads st))
                  (as_order st))
      | AAtLock =>
          match as_lock st with
          | None => Some (AState (Some i) (as_cell st) (at_ AAtLoad) (as_order st))
          | Some _ => None
          end
      | AAtLoad =>
          Some (AState (as_lock st) (as_cell st) (at_ (AAtStore (as_cell st))) (as_order st))
      | AAtStore old =>
          Some (AState (as_lock st) (apply_inv (at_call th) old) (at_ (AAtUnlock old))
                       (as_order st))
      | AAtUnlock old =>
          Some (AState None (as_cell st) (at_ (AReturned old))
                       (as_order st ++ [LinEntry i (at_call th) old]))
      | AReturned _ => None
      end
  end.

Definition atomic_init (initial : T) (calls : list invocation) : astate :=
  AState None initial ((fun c => AThread c ANotCalled []) <$> calls) [].

(** The state after the first [k] steps of the schedule. *)
Definition run_atomic_steps (k : nat) (sched : list nat) (initial : T)
    (calls : list invocation) : astate :=
  run_sched astep (fun st => length (as_threads st)) k sched (atomic_init initial calls).

(** The invocations [calls], each by its own thread, run to the end. *)
Definition run_atomic (sched : list nat) (initial : T) (calls : list invocation) : astate :=
  run_atomic_steps (5 * length calls) sched initial calls.

(** The prior values of a sequential execution: [a], then the result of the
    first invocation, ... *)
Fixpoint prior_values (a : T) (cs : list invocation) : list T :=
  match cs with
  | [] => []
  | c :: r => a :: prior_values (apply_inv c a) r
  end.

Definition in_critical (pc : apc) : bool :=
  match pc with
  | AAtLoad | AAtStore _ | AAtUnlock _ => true
  | _ => false
  end.

Definition returned_values (st : astate) : list T :=
  flat_map (fun th => match at_pc th with AReturned old => [old] | _ => [] end)
           (as_threads st).

Definition remaining (pc : apc) : nat :=
  match pc with
  | ANotCalled => 5
  | AAtLock => 4
  | AAtLoad => 3
  | AAtStore _ => 2
  | AAtUnlock _ => 1
  | AReturned _ => 0
  end.

Definition apending (st : astate) : nat :=
  sum_list_with (fun th => remaining (at_pc th)) (as_threads st).

Definition all_returned (st : astate) : Prop :=
  forall i th, as_threads st !! i = Some th -> exists old, at_pc th = AReturned old.

Variable initial : T.

Definition thread_inv (st : astate) (i : nat) (th : athread) : Prop :=
  let tids := map le_thread (as_order st) in
  let cs := map le_call (as_order st) in
  (at_pc th <> ANotCalled -> at_before th `prefix_of` tids /\ ~ In i (at_before th)) /\
  match at_pc th with
  | ANotCalled | AAtLock => ~ In i tids /\ as_lock st <> Some i
  | AAtLoad =>
      ~ In i tids /\ as_lock st = Some i /\ as_cell st = apply_all cs initial
  | AAtStore old =>
      ~ In i tids /\ as_lock st = Some i /\ as_cell st = apply_all cs initial /\
      old = as_cell st
  | AAtUnlock old =>
      ~ In i tids /\ as_lock st = Some i /\ old = apply_all cs initial /\
      as_cell st = apply_inv (at_call th) old
  | AReturned old => In (LinEntry i (at_call th) old) (as_order st)
  end.

Definition atomic_inv (calls : list invocation) (st : astate) : Prop :=
  at_call <$> as_threads st = calls /\
  (forall i th, as_threads st !! i = Some th -> thread_inv st i th) /\
  map le_prior (as_order st) = prior_values initial (map le_call (as_order st)) /\
  NoDup (map le_thread (as_order st)) /\
  (forall e, In e (as_order st) ->
     exists th, as_threads st !! le_thread e = Some th /\
                at_call th = le_call e /\ at_pc th = AReturned (le_prior e)) /\
  (as_lock st = None ->
     as_cell st = apply_all (map le_call (as_order st)) initial) /\
  (forall h, as_lock st = Some h ->
     exists th, as_threads st !! h = Some th /\ in_critical (at_pc th) = true).
End Atomic.

(** ** The pitch of a view *)

(** A view, as far as the pitch is concerned: its extents, outermost first,
    and [sizeof] of its element type.  Both files compute in an unsigned index
    type ([UInt], [idx::Idx<TView>]); [M] is its modulus. *)
Record View := MkView { view_extent : list Z; view_sizeof_elem : Z }.

Definition Dim (v : View) : nat := length (view_extent v).

(** [extent::getExtent<i>(view)], for an index within the dimensions; its
    declaration is not among the sources. *)
Definition getExtent (i : nat) (v : View) : option Z := view_extent v !! i.

(** [src/include/alpaka/traits/mem/View.hpp], lines 65-80. *)
Module ViewTraitsMem.
Definition GetPitchBytes (M : Z) (i : nat) (v : View) : option Z :=
  match getExtent i v with
  | Some e => Some ((e * view_sizeof_elem v) mod M)
  | None => None
  end.
End ViewTraitsMem.

(** [src/include/alpaka/mem/view/Traits.hpp], lines 82-151: the three
    specialisations of [GetPitchBytesDefault], for [i < Dim - 1], [i = Dim - 1]
    and [i = Dim]; [GetPitchBytes<i>] calls [GetPitchBytesDefault<i>].  For a
    view of dimension 0 the first and the last specialisation both match
    ([Dim - 1] wraps around): nothing builds. *)
Module MemViewTraits.
Equations GetPitchBytesDefault (M : Z) (v : View) (i : nat) : option Z
  by wf (Dim v - i)%nat lt :=
  GetPitchBytesDefault M v i with lt_eq_lt_dec (S i) (Dim v) := {
    | inleft (left _) =>
        match getExtent i v, GetPitchBytesDefault M v (S i) with
        | Some e, Some p => Some ((e * p) mod M)
        | _, _ => None
        end
    | inleft (right _) =>
        match getExtent i v with
        | Some e => Some ((e * view_sizeof_elem v) mod M)
        | None => None
        end
    | inright _ =>
        if Nat.eqb i (Dim v) then Some (view_sizeof_elem v mod M) else None }.
Next Obligation. lia. Qed.

Definition GetPitchBytes (M : Z) (i : nat) (v : View) : option Z :=
  match Dim v with
  | O => None
  | _ => GetPitchBytesDefault M v i
  end.
End MemViewTraits.

(** ** Concrete runtimes, kernels and views *)

(** A runtime that reports 256 threads, as in the capacity test of section 8
    of the spec; a non-positive [num_threads] is ignored, as libgomp does. *)
Definition omp_runtime_256 : OmpRuntime :=
  MkOmp 256 (fun n => if 1 <=? n then Z.to_nat n else 256%nat).

Definition acc_fresh : AccOpenMp :=
  MkAcc (MkWorkSize (Vec3 1 1 1) (Vec3 1 1 1)) (Vec3 0 0 0) [] [].

Definition st_fresh : @exec_state unit := MkState acc_fresh 8 true [].

(** A kernel that allocates two elements of a four-byte type. *)
Definition kernel_one_alloc : @Kernel unit :=
  MkKernel (fun _ _ => [KAlloc 4 2]) (fun _ => 0).

(** A kernel that calls nothing of the accelerator. *)
Definition kernel_plain : @Kernel unit :=
  MkKernel (fun _ _ => []) (fun _ => 0).

(** A 2 x 3 view of four-byte elements. *)
Definition view_2x3 : View := MkView [2; 3] 4.

(** ** Further members of [AccOpenMp] *)

Section ExecutorLimits.
Context {Args : Type}.
Variable rt : OmpRuntime.

(** [AccOpenMp::getSizeBlockKernelsMax] (lines 203-207). *)
Definition getSizeBlockKernelsMax (st : @exec_state Args) : vec3 * exec_state :=
  let '(uiSizeBlockKernelsLinearMax, st') := getSizeBlockKernelsLinearMax rt st in
  (Vec3 uiSizeBlockKernelsLinearMax uiSizeBlockKernelsLinearMax
        uiSizeBlockKernelsLinearMax, st').
End ExecutorLimits.

(** What [m_vvuiSharedMem.back().data()] gave a thread, call after call. *)
Definition back_events {Args : Type} (log : list (@event Args)) : list (option data_ptr) :=
  flat_map (fun e => match e with EvBack p => [p] | _ => [] end) log.

(** What a thread did with the barrier and the shared memory, without its
    entries into the kernel body. *)
Definition mem_events {Args : Type} (log : list (@event Args)) : list (@event unit) :=
  flat_map (fun e => match e with
                     | EvKernel _ _ _ => []
                     | EvBarrier => [EvBarrier]
                     | EvEmplaceBack n => [EvEmplaceBack n]
                     | EvBack p => [EvBack p]
                     end) log.

(** What a block did with the shared memory: its coordinate, the size of its
    team, the segments it started and ended with, and per thread the barrier
    passages, the emplacements and the addresses returned. *)
Definition block_shared_mem {Args : Type} (br : @block_record Args)
    : vec3 * nat * list segment * list (list (@event unit)) * list segment :=
  (br_block br, br_numThreads br, br_before br, map mem_events (br_logs br), br_after br).

(** The number of [allocBlockSharedMem] calls among the calls of a kernel. *)
Definition alloc_calls (calls : list kcall) : nat :=
  sum_list_with (fun c => match c with KAlloc _ _ => 1%nat | KSync => 0%nat end) calls.

(** The part of the state the loops of a launch write besides the shared
    memory: the grid-block index and dyn-var. *)
Definition idx_dyn {Args : Type} (st : @exec_state Args) : vec3 * bool :=
  (m_v3uiGridBlockIdx (st_acc st), st_dyn_var st).

(** ** Pitches in elements (traits/mem/View.hpp) *)

(** What a function that begins with an [assert] gives. *)
Inductive checked (A : Type) :=
| Value (a : A)
| AssertionFailed.
Arguments Value {A} a.
Arguments AssertionFailed {A}.

(** [alpaka::mem::getPitchBytes<TuiIdx, TVal>] (lines 225-240) and
    [alpaka::mem::getPitchElements<TuiIdx, TVal>] (lines 245-255).  [TVal] is
    an unsigned type of modulus [MVal]: the [static_cast] reduces the pitch
    modulo [MVal].  With [NDEBUG] the [assert] is compiled out. *)
Module MemView.
Definition getPitchBytes (M MVal : Z) (i : nat) (v : View) : option Z :=
  match ViewTraitsMem.GetPitchBytes M i v with
  | Some p => Some (p mod MVal)
  | None => None
  end.

Definition getPitchElements (NDEBUG : bool) (M MVal : Z) (i : nat) (v : View)
    : option (checked Z) :=
  match getPitchBytes M MVal i v with
  | Some p =>
      if NDEBUG || (p mod view_sizeof_elem v =? 0)
      then Some (Value (p / view_sizeof_elem v))
      else Some AssertionFailed
  | None => None
  end.
End MemView.

(** ** Printing a view (mem/view/Traits.hpp, lines 417-532) *)

(** The stream, as the sequence of the insertions made into it. *)
Inductive token (E : Type) :=
| TStr (s : string)
| TElem (x : E).
Arguments TStr {E} s.
Arguments TElem {E} x.

(** [for(auto i(decltype(lastIdx)(0)); i<=lastIdx; ++i) body]: [i] has the
    unsigned type of [lastIdx]; when [lastIdx] is the largest value of that
    type the condition holds for every [i] and the loop does not end. *)
Definition for_idx {St : Type} (M lastIdx : Z) (body : Z -> St -> option St) (s : St)
    : option St :=
  if lastIdx =? M - 1 then None
  else fold_left (fun acc i => match acc with Some s => body i s | None => None end)
                 (zrange (lastIdx + 1)) (Some s).

Section Printing.
Context {E : Type}.
Variable M : Z.
Variable v : View.
(** [view::getPitchBytes<i>(view)]: a view type may specialise the trait. *)
Variable pitchBytes : nat -> option Z.
(** The element an [elem::Elem<TView> const *] at a byte address points to;
    [None] where there is no element to read. *)
Variable mem : Z -> option E.
Variables elementSeparator rowSeparator rowPrefix rowSuffix : string.

(** [detail::Print<TDim, TView>::print]: the general template, for
    [TDim < Dim - 1], and the specialisation for [TDim = Dim - 1].
    [extent[TDim] - 1u] and [i*pitch] are computed in the index type, taken
    to be unsigned and at least as wide as [unsigned int], of modulus [M] (a
    narrower type is promoted and not reduced); a result of [None] stands for
    a read outside the memory, a loop that does not end, or a template that
    does not build. *)
Equations Print_print (d : nat) (ptr : Z) (os : list (token E)) : option (list (token E))
  by wf (Dim v - d)%nat lt :=
  Print_print d ptr os with lt_eq_lt_dec (S d) (Dim v) := {
    | inleft (left _) =>
        match pitchBytes (S d), view_extent v !! d with
        | Some pitch, Some e =>
            let lastIdx := (e - 1) mod M in
            match for_idx M lastIdx (fun i os =>
                    match Print_print (S d) (ptr + (i * pitch) mod M) os with
                    | Some os' =>
                        Some (if i =? lastIdx then os' else os' ++ [TStr rowSeparator])
                    | None => None
                    end) (os ++ [TStr rowPrefix]) with
            | Some os' => Some (os' ++ [TStr rowSuffix])
            | None => None
            end
        | _, _ => None
        end
    | inleft (right _) =>
        match view_extent v !! d with
        | Some e =>
            let lastIdx := (e - 1) mod M in
            match for_idx M lastIdx (fun i os =>
                    match mem (ptr + i * view_sizeof_elem v) with
                    | Some x =>
                        Some (if i =? lastIdx then os ++ [TElem x]
                              else os ++ [TElem x; TStr elementSeparator])
                    | None => None
                    end) (os ++ [TStr rowPrefix]) with
            | Some os' => Some (os' ++ [TStr rowSuffix])
            | None => None
            end
        | None => None
        end
    | inright _ => None }.
Next Obligation. lia. Qed.

(** [mem::view::print] (lines 509-532); [ptrNative] is
    [mem::view::getPtrNative(view)]. *)
Definition print (ptrNative : Z) (os : list (token E)) : option (list (token E)) :=
  Print_print 0 ptrNative os.
End Printing.

(** The elements a stream received, in order. *)
Definition elems_of {E : Type} (os : list (token E)) : list E :=
  flat_map (fun t => match t with TElem x => [x] | TStr _ => [] end) os.

(** A memory that holds the elements [elems], each of [sizeofT] bytes, one
    after the other from the address [base]. *)
Definition buffer {E : Type} (base sizeofT : Z) (elems : list E) : Z -> option E :=
  fun a =>
    if (base <=? a) && ((a - base) mod sizeofT =? 0)
    then elems !! Z.to_nat ((a - base) / sizeofT)
    else None.

Definition prodZ (l : list Z) : Z := fold_right Z.mul 1 l.

(** The elements [xs] with the separator between each two of them. *)
Fixpoint separated {E : Type} (sep : string) (xs : list E) : list (token E) :=
  match xs with
  | [] => []
  | x :: r =>
      match r with
      | [] => [TElem x]
      | _ :: _ => TElem x :: TStr sep :: separated sep r
      end
  end.

(* ===================================================================== *)
(** * Part II: theorems *)
(* ===================================================================== *)

(** ** Index arithmetic *)

Lemma rem_split e0 e1 t :
  1 <= e0 -> 1 <= e1 ->
  t mod (e1 * e0) = t mod e0 + e0 * ((t / e0) mod e1).
Proof. intros. rewrite (Z.mul_comm e1 e0). apply Z.rem_mul_r; lia. Qed.

(** The expressions of the source, read over the integers, are the rule. *)
Lemma code_expressions_rule e0 e1 t :
  1 <= e0 -> 1 <= e1 ->
  Vec3 ((t mod (e1 * e0)) mod e0) ((t mod (e1 * e0)) / e0) (t / (e1 * e0))
  = Vec3 (t mod e0) ((t / e0) mod e1) (t / (e0 * e1)).
Proof.
  intros H0 H1.
  rewrite rem_split by lia.
  pose proof (Z.mod_pos_bound t e0 ltac:(lia)) as Hx.
  f_equal.
  - symmetry. apply Z.mod_unique_pos with ((t / e0) mod e1); lia.
  - symmetry. apply Z.div_unique_pos with (t mod e0); lia.
  - f_equal; lia.
Qed.

(** Without wrap-around the 32-bit computation is the integer one. *)
Lemma getIdxBlockKernel_no_wrap e0 e1 e2 t :
  1 <= e0 -> 1 <= e1 -> e0 * e1 < 2 ^ 32 -> 0 <= t <= INT_MAX ->
  getIdxBlockKernel (Vec3 e0 e1 e2) t
  = Some (Vec3 ((t mod (e1 * e0)) mod e0) ((t mod (e1 * e0)) / e0) (t / (e1 * e0))).
Proof.
  intros H0 H1 Hfit Ht.
  unfold getIdxBlockKernel, mul_uint32, to_uint32, INT_MAX in *; cbn [at0 at1 at2].
  rewrite (Z.mod_small (e1 * e0)) by nia.
  rewrite (Z.mod_small t) by lia.
  destruct (Z.eqb_spec (e1 * e0) 0); [nia|].
  destruct (Z.eqb_spec e0 0); [lia|]. reflexivity.
Qed.

Lemma linearize_bound c0 c1 c2 e0 e1 e2 :
  0 <= c0 < e0 -> 0 <= c1 < e1 -> 0 <= c2 < e2 ->
  0 <= linearize (Vec3 c0 c1 c2) (Vec3 e0 e1 e2) < e0 * e1 * e2.
Proof.
  unfold linearize; cbn. intros A B C.
  assert (0 <= e1 * c2 <= e1 * (e2 - 1)) by nia.
  assert (0 <= e0 * (c1 + e1 * c2) <= e0 * (e1 * e2 - 1)) by nia.
  lia.
Qed.

Lemma rule_linearize c0 c1 c2 e0 e1 e2 :
  0 <= c0 < e0 -> 0 <= c1 < e1 -> 0 <= c2 < e2 ->
  delinearization_rule (Vec3 e0 e1 e2) (linearize (Vec3 c0 c1 c2) (Vec3 e0 e1 e2))
  = Vec3 c0 c1 c2.
Proof.
  intros A B C. unfold delinearization_rule, linearize; cbn [at0 at1 at2].
  assert (Hq : (c0 + e0 * (c1 + e1 * c2)) / e0 = c1 + e1 * c2).
  { symmetry. apply Z.div_unique_pos with c0; lia. }
  f_equal.
  - symmetry. apply Z.mod_unique_pos with (c1 + e1 * c2); lia.
  - rewrite Hq. symmetry. apply Z.mod_unique_pos with c2; lia.
  - symmetry. apply Z.div_unique_pos with (c0 + e0 * c1); nia.
Qed.

Lemma linearize_rule e0 e1 e2 t :
  1 <= e0 -> 1 <= e1 ->
  linearize (delinearization_rule (Vec3 e0 e1 e2) t) (Vec3 e0 e1 e2) = t.
Proof.
  intros. unfold delinearization_rule, linearize; cbn [at0 at1 at2].
  rewrite <- Z.div_div by lia.
  pose proof (Z.div_mod t e0 ltac:(lia)).
  pose proof (Z.div_mod (t / e0) e1 ltac:(lia)). lia.
Qed.

Lemma rule_valid e0 e1 e2 t :
  1 <= e0 -> 1 <= e1 -> 0 <= t < e0 * e1 * e2 ->
  valid_coord (delinearization_rule (Vec3 e0 e1 e2) t) (Vec3 e0 e1 e2).
Proof.
  intros. unfold valid_coord, delinearization_rule; cbn [at0 at1 at2].
  split; [apply Z.mod_pos_bound; lia|]. split; [apply Z.mod_pos_bound; lia|].
  split; [apply Z.div_pos; nia|]. apply Z.div_lt_upper_bound; nia.
Qed.

(** C2 (as amended): for an extent with every axis at least 1 whose first two
    axes have a product that fits 32 bits, and a valid coordinate whose linear
    index is an [int], [getIdxBlockKernel] maps the linear index of the
    coordinate back to the coordinate. *)
Theorem getIdxBlockKernel_linearize (c e : vec3) :
  1 <= at0 e -> 1 <= at1 e -> 1 <= at2 e ->
  valid_coord c e ->
  at0 e * at1 e < 2 ^ 32 ->
  linearize c e <= INT_MAX ->
  getIdxBlockKernel e (linearize c e) = Some c.
Proof.
  destruct c as [c0 c1 c2], e as [e0 e1 e2]. unfold valid_coord; cbn [at0 at1 at2].
  intros H0 H1 H2 (A & B & C) Hfit Hint.
  pose proof (linearize_bound c0 c1 c2 e0 e1 e2 A B C) as Hb.
  rewrite getIdxBlockKernel_no_wrap by lia.
  rewrite code_expressions_rule by lia.
  f_equal. apply (rule_linearize c0 c1 c2 e0 e1 e2); done.
Qed.

Lemma getIdxBlockKernel_linearize_witness :
  getIdxBlockKernel (Vec3 8 8 8) (linearize (Vec3 7 3 5) (Vec3 8 8 8)) = Some (Vec3 7 3 5).
Proof.
  apply (getIdxBlockKernel_linearize (Vec3 7 3 5) (Vec3 8 8 8));
    try (unfold valid_coord; cbn [at0 at1 at2]; lia);
    vm_compute; congruence.
Defined.

(** C2 (as stated) fails: in the extent (65536, 65537, 1) the product of the
    first two axes wraps around to 65536, and the valid coordinate (0, 1, 0),
    of linear index 65536, comes back as (0, 0, 1). *)
Lemma roundtrip_fails_on_wrapped_extent :
  1 <= at0 (Vec3 65536 65537 1) /\ 1 <= at1 (Vec3 65536 65537 1) /\
  1 <= at2 (Vec3 65536 65537 1) /\
  valid_coord (Vec3 0 1 0) (Vec3 65536 65537 1) /\
  getIdxBlockKernel (Vec3 65536 65537 1) (linearize (Vec3 0 1 0) (Vec3 65536 65537 1))
  = Some (Vec3 0 0 1) /\
  getIdxBlockKernel (Vec3 65536 65537 1) (linearize (Vec3 0 1 0) (Vec3 65536 65537 1))
  <> Some (Vec3 0 1 0).
Proof.
  unfold valid_coord; cbn [at0 at1 at2].
  repeat split; try lia; try (vm_compute; congruence).
Qed.

(** C3 (as amended): for a block-thread extent with every axis at least 1,
    the expressions of the source, read over the integers, equal the rule
    for every thread identity; when the first two axes have a product that
    fits 32 bits, the coordinate [getIdxBlockKernel] derives from a flat
    thread identity [t] (an [int]) below the product of the extent is the
    one of the rule, and it is valid. *)
Theorem getIdxBlockKernel_rule (e0 e1 e2 : Z) :
  1 <= e0 -> 1 <= e1 -> 1 <= e2 ->
  (forall t,
     Vec3 ((t mod (e1 * e0)) mod e0) ((t mod (e1 * e0)) / e0) (t / (e1 * e0))
     = delinearization_rule (Vec3 e0 e1 e2) t) /\
  (e0 * e1 < 2 ^ 32 ->
   forall t, 0 <= t < e0 * e1 * e2 -> t <= INT_MAX ->
     getIdxBlockKernel (Vec3 e0 e1 e2) t = Some (delinearization_rule (Vec3 e0 e1 e2) t) /\
     valid_coord (delinearization_rule (Vec3 e0 e1 e2) t) (Vec3 e0 e1 e2)).
Proof.
  intros H0 H1 H2. split.
  - intros t. by apply code_expressions_rule.
  - intros Hfit t Ht Hint.
    rewrite getIdxBlockKernel_no_wrap by lia.
    rewrite code_expressions_rule by lia.
    split; [done|]. by apply rule_valid.
Qed.

Lemma getIdxBlockKernel_rule_witness :
  getIdxBlockKernel (Vec3 4 3 2) 17 = Some (Vec3 1 1 1) /\
  Vec3 ((17 mod (3 * 4)) mod 4) ((17 mod (3 * 4)) / 4) (17 / (3 * 4)) = Vec3 1 1 1.
Proof.
  destruct (getIdxBlockKernel_rule 4 3 2) as [Hexpr Hcode]; try lia.
  destruct (Hcode ltac:(lia) 17) as [H _]; unfold INT_MAX; try lia.
  split; [exact H|exact (Hexpr 17)].
Defined.

(** C3 (as stated) fails: in the block-thread extent (65536, 65537, 1) the
    32-bit product of the first two axes is 65536, and the thread identity
    65536 gets (0, 0, 1) where the rule gives (0, 1, 0). *)
Lemma getIdxBlockKernel_wraps :
  1 <= 65536 /\ 1 <= 65537 /\ 1 <= 1 /\ 0 <= 65536 < 65536 * 65537 * 1 /\
  getIdxBlockKernel (Vec3 65536 65537 1) 65536 = Some (Vec3 0 0 1) /\
  delinearization_rule (Vec3 65536 65537 1) 65536 = Vec3 0 1 0 /\
  getIdxBlockKernel (Vec3 65536 65537 1) 65536
  <> Some (delinearization_rule (Vec3 65536 65537 1) 65536).
Proof. repeat split; try lia; try (vm_compute; congruence). Qed.

(** ** Lists and schedules *)

Lemma forallb_lookup {A} (f : A -> bool) (l : list A) :
  forallb f l = true <-> forall i x, l !! i = Some x -> f x = true.
Proof.
  rewrite forallb_forall. split.
  - intros H i x Hi. apply H, list_elem_of_In, list_elem_of_lookup. eauto.
  - intros H x Hx. apply list_elem_of_In, list_elem_of_lookup in Hx as [i Hi]. eauto.
Qed.

Lemma forallb_false_lookup {A} (f : A -> bool) (l : list A) :
  forallb f l = false -> exists i x, l !! i = Some x /\ f x = false.
Proof.
  induction l as [|a l IH]; cbn; [discriminate|].
  destruct (f a) eqn:E; cbn.
  - intros H. destruct (IH H) as (i & x & Hi & Hx). exists (S i), x. auto.
  - intros _. exists 0%nat, a. auto.
Qed.

Lemma sum_lookup_le {A} (f : A -> nat) (l : list A) i x :
  l !! i = Some x -> (f x <= sum_list_with f l)%nat.
Proof.
  revert i. induction l as [|a l IH]; intros [|i]; simpl; try done.
  - intros [= ->]. lia.
  - intros H. specialize (IH _ H). lia.
Qed.

Lemma sum_insert_lt {A} (f : A -> nat) (l : list A) i x y :
  l !! i = Some x -> (f y < f x)%nat ->
  (sum_list_with f (<[i:=y]> l) < sum_list_with f l)%nat.
Proof.
  revert i. induction l as [|a l IH]; intros [|i]; simpl; try done.
  - intros [= ->]. lia.
  - intros H Hlt. specialize (IH _ H Hlt). lia.
Qed.

Lemma sum_fmap_le {A} (f : A -> nat) (g : A -> A) (l : list A) :
  (forall i x, l !! i = Some x -> (f (g x) <= f x)%nat) ->
  (sum_list_with f (g <$> l) <= sum_list_with f l)%nat.
Proof.
  induction l as [|a l IH]; cbn; [lia|]. intros H.
  pose proof (H 0%nat a eq_refl).
  assert (sum_list_with f (g <$> l) <= sum_list_with f l)%nat.
  { apply IH. intros i x Hi. apply (H (S i)). done. }
  lia.
Qed.

Lemma sum_replicate {A} (f : A -> nat) (n : nat) (x : A) :
  sum_list_with f (replicate n x) = (n * f x)%nat.
Proof. induction n as [|n IH]; simpl; [done|]. rewrite IH. lia. Qed.

Lemma map_const_repeat {A B} (f : A -> B) (c : B) (l : list A) :
  (forall x, In x l -> f x = c) -> map f l = repeat c (length l).
Proof.
  induction l as [|x l IH]; intros H; cbn; [done|].
  rewrite (H x) by (by left). f_equal. apply IH. intros; apply H. by right.
Qed.

Section SchedulerFacts.
Context {St : Type}.
Variable step : nat -> St -> option St.
Variable size : St -> nat.

Lemma enabled_spec i s :
  i ∈ enabled step size s <-> (i < size s)%nat /\ is_Some (step i s).
Proof.
  unfold enabled. rewrite list_elem_of_filter, bool_decide_spec, elem_of_seq.
  split; [intros [? ?]; split; [lia|done]|intros [? ?]; split; [done|lia]].
Qed.

(** An invariant of the steps holds after any number of steps. *)
Lemma run_sched_inv (I : St -> Prop) :
  (forall i s s', I s -> step i s = Some s' -> I s') ->
  forall fuel sched s, I s -> I (run_sched step size fuel sched s).
Proof.
  intros Hstep. induction fuel as [|fuel IH]; intros sched s Hs; cbn [run_sched]; [done|].
  destruct (enabled step size s) as [|i0 en]; [done|].
  destruct (step _ s) as [s'|] eqn:E; [|done]. eapply IH, Hstep; eauto.
Qed.

(** With a measure that every step decreases and enough fuel, the run ends
    in a state where no thread can move. *)
Lemma run_sched_reaches (I D : St -> Prop) (mu : St -> nat) :
  (forall i s s', I s -> step i s = Some s' -> I s' /\ (mu s' < mu s)%nat) ->
  (forall s, I s -> enabled step size s = [] -> D s) ->
  (forall s, I s -> mu s = 0%nat -> D s) ->
  forall fuel sched s, I s -> (mu s <= fuel)%nat ->
    I (run_sched step size fuel sched s) /\ D (run_sched step size fuel sched s).
Proof.
  intros Hstep Hstuck Hzero.
  induction fuel as [|fuel IH]; intros sched s Hs Hmu; cbn [run_sched].
  - split; [done|]. apply Hzero; [done|lia].
  - destruct (enabled step size s) as [|i0 en] eqn:Hen; [by auto|].
    set (i := nth _ _ _).
    assert (Hi : i ∈ enabled step size s).
    { rewrite Hen. apply list_elem_of_In, nth_In. subst i.
      apply Nat.mod_upper_bound. done. }
    apply enabled_spec in Hi as [_ [s' Hs']]. rewrite Hs'.
    destruct (Hstep _ _ _ Hs Hs') as [Hs'' Hlt]. apply IH; [done|lia].
Qed.
End SchedulerFacts.

(** ** The threads of one block: every schedule ends in the same state *)

Lemma segs_of_app c1 c2 : segs_of (c1 ++ c2) = segs_of c1 ++ segs_of c2.
Proof. unfold segs_of. apply flat_map_app. Qed.

Lemma back_data_snoc (m : list segment) s : back_data (m ++ [s]) = Some (length m).
Proof.
  unfold back_data. destruct (m ++ [s]) eqn:E.
  - by destruct m.
  - rewrite <- E, length_app. cbn. f_equal. lia.
Qed.

Lemma isolatedb_spec c : isolatedb c = true -> isolated c.
Proof.
  induction c as [|x r IH]; intros H k a Hk Ha; [done|].
  destruct r as [|y r']; [right; by destruct k|].
  cbn [isolatedb] in H. apply andb_true_iff in H as [Hxy Hr].
  destruct k as [|k]; cbn in Hk |- *.
  - injection Hk as ->. left. f_equal.
    apply orb_true_iff in Hxy as [Hx%bool_decide_eq_true|Hy%bool_decide_eq_true]; done.
  - apply (IH Hr k a); done.
Qed.

Section TeamFacts.
Context {Args : Type}.
Variable rg : @region Args.

Ltac simpl_th :=
  unfold thread_ok, release, arrive;
  cbn [th_pc th_waiting th_log tm_mem tm_threads].

Lemma log_of_app i m c1 c2 :
  log_of rg i m (c1 ++ c2) = log_of rg i m c1 ++ log_of rg i (m ++ segs_of c1) c2.
Proof.
  revert m. induction c1 as [|x c1 IH]; intros m; cbn [app log_of].
  - unfold segs_of; cbn. by rewrite app_nil_r.
  - rewrite IH, <- !app_assoc. do 3 f_equal.
    change (x :: c1) with ([x] ++ c1). by rewrite segs_of_app.
Qed.

Lemma log_of_snoc i m c x :
  log_of rg i m (c ++ [x]) = log_of rg i m c ++ instr_events rg i x (m ++ segs_of c).
Proof. rewrite log_of_app. cbn. by rewrite app_nil_r. Qed.

Lemma init_inv n mem0 : (1 <= n)%nat -> team_inv rg mem0 (team_init n mem0).
Proof.
  intros Hn. exists 0%nat. unfold team_init; cbn. split; [|split].
  - intros i th [-> _]%lookup_replicate. repeat split; cbn; auto; try lia; try done.
  - exists (Thread 0 false []). split.
    + apply lookup_replicate. split; [done|lia].
    + cbn. unfold segs_of; cbn. by rewrite app_nil_r.
  - exists 0%nat, (Thread 0 false []). split; [|done].
    apply lookup_replicate. split; [done|lia].
Qed.

Lemma step_length i tm tm' :
  step rg i tm = Some tm' -> length (tm_threads tm') = length (tm_threads tm).
Proof.
  unfold step.
  destruct (tm_threads tm !! i) as [th|]; [|done].
  destruct (rg_code rg !! th_pc th) as [[]|]; try done;
    try (intros [= <-]; cbn; by rewrite length_insert).
  destruct (th_waiting th); [done|].
  destruct (forallb _ _); intros [= <-]; cbn;
    rewrite ?length_fmap, ?length_insert; done.
Qed.

(** The events of an instruction do not depend on whether thread 0 has
    already executed that same instruction. *)
Lemma instr_events_own i x m :
  instr_events rg i x (m ++ segs_of [x]) = instr_events rg i x m.
Proof.
  destruct x; cbn; try done.
  unfold segs_of; cbn. by rewrite app_nil_r.
Qed.

Lemma instr_mem_segs x m :
  x <> IBarrier -> instr_mem 0 x m = m ++ segs_of [x].
Proof. destruct x; cbn; unfold segs_of; cbn; intros; by rewrite ?app_nil_r. Qed.

Lemma instr_mem_other i x m : i <> 0%nat -> instr_mem i x m = m.
Proof. destruct x; cbn; try done. destruct i; done. Qed.

Lemma step_inv mem0 i tm tm' :
  isolated (rg_code rg) -> team_inv rg mem0 tm -> step rg i tm = Some tm' ->
  team_inv rg mem0 tm'.
Proof.
  intros Hiso (s & Hths & (th0 & H0 & Hmem) & Hnw). unfold step.
  destruct (tm_threads tm !! i) as [th|] eqn:Hi; [|done].
  destruct (Hths _ _ Hi) as (Hpc & Hle & Hwait & Hlog).
  destruct (rg_code rg !! th_pc th) as [x|] eqn:Hx; [|done].
  assert (Hlt : (th_pc th < length (rg_code rg))%nat) by (eapply lookup_lt_Some; eauto).
  assert (Hilt : (i < length (tm_threads tm))%nat) by (eapply lookup_lt_Some; eauto).
  destruct (decide (x = IBarrier)) as [->|Hnb].
  - (* arrival at a barrier *)
    destruct (th_waiting th) eqn:Hw; [done|].
    destruct (forallb _ _) eqn:Hall; intros [= <-].
    + (* the last arrival releases every thread *)
      rewrite forallb_lookup in Hall.
      assert (Hsame : forall j thj, tm_threads tm !! j = Some thj -> th_pc thj = th_pc th).
      { intros j thj Hj. destruct (decide (j = i)) as [->|Hne]; [congruence|].
        assert (Hwj : th_waiting thj = true).
        { apply (Hall j). by rewrite list_lookup_insert_ne. }
        destruct (Hths _ _ Hj) as (Hpcj & _ & Hbj & _). specialize (Hbj Hwj).
        destruct Hpc as [Hpc|(Hpc & y & Hy & Hyb)], Hpcj as [Hpcj|(Hpcj & z & Hz & Hzb)];
          congruence. }
      exists (S (th_pc th)). simpl_th. split; [|split].
      * intros j thj'. rewrite list_lookup_fmap.
        destruct (decide (j = i)) as [->|Hne].
        -- rewrite list_lookup_insert_eq by done. intros [= <-]. simpl_th.
           repeat split; auto; try lia; try done.
           rewrite (take_S_r _ _ _ Hx), log_of_snoc, Hlog. done.
        -- rewrite list_lookup_insert_ne by done.
           destruct (tm_threads tm !! j) as [thj|] eqn:Hj; [|done]. intros [= <-].
           simpl_th.
           destruct (Hths _ _ Hj) as (_ & _ & _ & Hlogj).
           pose proof (Hsame _ _ Hj) as Hp. rewrite Hp.
           repeat split; auto; try lia; try done.
           rewrite (take_S_r _ _ _ Hx), log_of_snoc, Hlogj, Hp. done.
      * assert (Hp0 : th_pc th0 = th_pc th) by eauto.
        destruct (decide (i = 0%nat)) as [->|Hne].
        -- exists (release (arrive th)). rewrite list_lookup_fmap, list_lookup_insert_eq by done.
           split; [done|]. simpl_th. rewrite (take_S_r _ _ _ Hx), segs_of_app.
           rewrite Hmem, Hp0. unfold segs_of at 3; simpl_th. by rewrite app_nil_r.
        -- exists (release th0). rewrite list_lookup_fmap, list_lookup_insert_ne, H0 by done.
           split; [done|]. simpl_th. rewrite Hp0, (take_S_r _ _ _ Hx), segs_of_app.
           rewrite Hmem, Hp0. unfold segs_of at 3; simpl_th. by rewrite app_nil_r.
      * exists i, (release (arrive th)). rewrite list_lookup_fmap, list_lookup_insert_eq by done.
        done.
    + (* the thread waits *)
      apply forallb_false_lookup in Hall as (j & thj & Hj & Hwj).
      exists s. simpl_th. split; [|split].
      * intros k thk. destruct (decide (k = i)) as [->|Hne].
        -- rewrite list_lookup_insert_eq by done. intros [= <-].
           simpl_th; repeat split; auto.
        -- rewrite list_lookup_insert_ne by done. apply Hths.
      * destruct (decide (i = 0%nat)) as [->|Hne].
        -- exists (arrive th). rewrite list_lookup_insert_eq by done. split; [done|].
           simpl_th. congruence.
        -- exists th0. by rewrite list_lookup_insert_ne.
      * eauto.
  - (* an instruction that is not a barrier *)
    assert (Hs : th_pc th = s).
    { destruct Hpc as [?|(Hpc & y & Hy & Hyb)]; [done|].
      destruct (Hiso _ _ Hy Hyb) as [Hb|Hb]; rewrite <- Hpc in Hb; congruence. }
    assert (Hstep : tm' = Team (instr_mem i x (tm_mem tm))
               (<[i := Thread (S (th_pc th)) false
                         (th_log th ++ instr_events rg i x (tm_mem tm))]> (tm_threads tm))
            -> team_inv rg mem0 tm').
    { intros ->. exists s. simpl_th. split; [|split].
      * intros k thk. destruct (decide (k = i)) as [->|Hne].
        -- rewrite list_lookup_insert_eq by done. intros [= <-]. simpl_th.
           split; [right; split; [lia|]; exists x; by rewrite <- Hs|].
           split; [lia|]. split; [done|].
           rewrite (take_S_r _ _ _ Hx), log_of_snoc, Hlog. f_equal.
           rewrite Hmem.
           destruct (Hths _ _ H0) as ([Hp0|(Hp0 & _)] & _).
           ++ by rewrite Hp0, Hs.
           ++ rewrite Hp0, <- Hs, (take_S_r _ _ _ Hx), segs_of_app, app_assoc.
              apply instr_events_own.
        -- rewrite list_lookup_insert_ne by done. apply Hths.
      * destruct (decide (i = 0%nat)) as [->|Hne].
        -- exists (Thread (S (th_pc th)) false (th_log th ++ instr_events rg 0 x (tm_mem tm))).
           rewrite list_lookup_insert_eq by done. split; [done|]. simpl_th.
           rewrite (take_S_r _ _ _ Hx), segs_of_app, app_assoc, instr_mem_segs by done.
           f_equal. rewrite Hmem. congruence.
        -- exists th0. rewrite list_lookup_insert_ne by done. split; [done|].
           by rewrite instr_mem_other.
      * eexists i, _. rewrite list_lookup_insert_eq by done. done. }
    destruct x; try done; intros [= <-]; by apply Hstep.
Qed.

Lemma step_measure mem0 i tm tm' :
  team_inv rg mem0 tm -> step rg i tm = Some tm' -> (measure rg tm' < measure rg tm)%nat.
Proof.
  intros (s & Hths & _ & _). unfold step, measure.
  destruct (tm_threads tm !! i) as [th|] eqn:Hi; [|done].
  destruct (rg_code rg !! th_pc th) as [x|] eqn:Hx; [|done].
  assert (Hlt : (th_pc th < length (rg_code rg))%nat) by (eapply lookup_lt_Some; eauto).
  assert (Hord : forall l, (sum_list_with (weight rg)
             (<[i := Thread (S (th_pc th)) false l]> (tm_threads tm))
             < sum_list_with (weight rg) (tm_threads tm))%nat).
  { intros l. eapply sum_insert_lt; [done|]. unfold weight; cbn. destruct (th_waiting th); lia. }
  destruct x; try (intros [= <-]; cbn [tm_threads]; apply Hord).
  destruct (th_waiting th) eqn:Hw; [done|].
  assert (Harr : (sum_list_with (weight rg) (<[i := arrive th]> (tm_threads tm))
                  < sum_list_with (weight rg) (tm_threads tm))%nat).
  { eapply sum_insert_lt; [done|]. unfold weight, arrive; cbn. rewrite Hw. lia. }
  destruct (forallb _ _) eqn:Hall; intros [= <-]; cbn [tm_threads]; [|done].
  eapply Nat.le_lt_trans; [|exact Harr].
  apply sum_fmap_le. intros j thj Hj.
  rewrite forallb_lookup in Hall. pose proof (Hall _ _ Hj) as Hwj.
  assert (Hpcj : (th_pc thj < length (rg_code rg))%nat).
  { destruct (decide (j = i)) as [->|Hne].
    - rewrite list_lookup_insert_eq in Hj by (eapply lookup_lt_Some; eauto).
      injection Hj as <-. done.
    - rewrite list_lookup_insert_ne in Hj by done.
      destruct (Hths _ _ Hj) as (_ & _ & Hb & _). specialize (Hb Hwj).
      eapply lookup_lt_Some; eauto. }
  unfold weight, release; cbn. rewrite Hwj. lia.
Qed.

(** No deadlock: while a thread has code left, some thread can move. *)
Lemma progress mem0 tm :
  isolated (rg_code rg) -> team_inv rg mem0 tm ->
  enabled (step rg) (fun tm => length (tm_threads tm)) tm = [] ->
  team_done rg tm = true.
Proof.
  intros Hiso (s & Hths & _ & (v & thv & Hv & Hwv)) Hen.
  destruct (team_done rg tm) eqn:Hnd; [done|]. exfalso.
  apply forallb_false_lookup in Hnd as (u & thu & Hu & Hpu).
  apply Nat.leb_gt in Hpu.
  assert (Hcan : forall j thj, tm_threads tm !! j = Some thj -> th_waiting thj = false ->
                  (th_pc thj < length (rg_code rg))%nat -> False).
  { intros j thj Hj Hw Hp.
    assert (Hs : is_Some (step rg j tm)).
    { unfold step. rewrite Hj.
      destruct (lookup_lt_is_Some_2 _ _ Hp) as [x ->].
      destruct x; try done. rewrite Hw. by destruct (forallb _ _). }
    assert (Hin : j ∈ enabled (step rg) (fun tm => length (tm_threads tm)) tm).
    { apply enabled_spec. split; [by eapply lookup_lt_Some|done]. }
    rewrite Hen in Hin. by apply elem_of_nil in Hin. }
  destruct (decide (th_pc thv < length (rg_code rg))%nat) as [Hlt|Hge]; [by eauto|].
  destruct (Hths _ _ Hv) as (Hpv & Hlev & _).
  destruct (Hths _ _ Hu) as (Hpu' & _ & Hbu & _).
  apply (Hcan _ _ Hu); [|done].
  destruct (th_waiting thu) eqn:Hwu; [|done]. specialize (Hbu eq_refl).
  destruct Hpv as [Hpv|(Hpv & y & Hy & Hyb)], Hpu' as [Hpu'|(Hpu' & z & Hz & Hzb)];
    try lia.
  rewrite Hpu' in Hbu. congruence.
Qed.

Lemma measure_pos mem0 tm : team_inv rg mem0 tm -> (1 <= measure rg tm)%nat.
Proof.
  intros (s & _ & _ & (v & thv & Hv & Hwv)).
  pose proof (sum_lookup_le (weight rg) _ _ _ Hv) as H. unfold measure.
  unfold weight at 1 in H. rewrite Hwv in H. lia.
Qed.

Lemma done_final mem0 tm :
  team_inv rg mem0 tm -> team_done rg tm = true ->
  tm = team_final rg (length (tm_threads tm)) mem0.
Proof.
  intros (s & Hths & (th0 & H0 & Hmem) & _) Hd.
  unfold team_done in Hd. rewrite forallb_lookup in Hd.
  assert (Hfull : forall i th, tm_threads tm !! i = Some th ->
            th = Thread (length (rg_code rg)) false (log_of rg i mem0 (rg_code rg))).
  { intros i th Hi. destruct (Hths _ _ Hi) as (_ & Hle & Hb & Hlog).
    pose proof (Hd _ _ Hi) as Hge. apply Nat.leb_le in Hge.
    assert (Hpc : th_pc th = length (rg_code rg)) by lia.
    destruct th as [pc w l]; cbn in *. subst pc. f_equal.
    - destruct w; [|done]. specialize (Hb eq_refl).
      apply lookup_lt_Some in Hb. lia.
    - by rewrite Hlog, firstn_all. }
  destruct tm as [mem ths]; cbn in *. unfold team_final. f_equal.
  - rewrite Hmem, (Hfull _ _ H0); cbn. by rewrite firstn_all.
  - apply list_eq. intros i. rewrite list_lookup_fmap.
    destruct (ths !! i) as [th|] eqn:Hi.
    + rewrite (Hfull _ _ Hi). pose proof (lookup_lt_Some _ _ _ Hi).
      rewrite lookup_seq_lt by done. done.
    + apply lookup_ge_None in Hi. rewrite lookup_seq_ge by done. done.
Qed.

(** Whatever the schedule, a team of [n >= 1] threads that runs isolated code
    ends with every thread at the end of the code, with the segments and the
    logs that the code determines. *)
Theorem run_team_final n mem0 sched :
  isolated (rg_code rg) -> (1 <= n)%nat ->
  run_team rg (n * (2 * length (rg_code rg) + 1)) sched (team_init n mem0)
  = team_final rg n mem0.
Proof.
  intros Hiso Hn. unfold run_team.
  assert (Hm : (measure rg (team_init n mem0) <= n * (2 * length (rg_code rg) + 1))%nat).
  { unfold measure, team_init; cbn [tm_threads].
    rewrite sum_replicate. unfold weight; cbn [th_pc th_waiting]. lia. }
  destruct (run_sched_reaches (step rg) (fun tm => length (tm_threads tm))
              (fun tm => team_inv rg mem0 tm /\ length (tm_threads tm) = n)
              (fun tm => team_done rg tm = true) (measure rg)
              ltac:(intros i s s' [Hs Hl] Hstep; split; [split|];
                    [by eapply step_inv
                    |rewrite <- Hl; by eapply step_length
                    |by eapply step_measure])
              ltac:(intros s [Hs _]; by apply (progress mem0))
              ltac:(intros s [Hs _] Hz; pose proof (measure_pos _ _ Hs); lia)
              (n * (2 * length (rg_code rg) + 1))%nat sched (@team_init Args n mem0))
    as [[Hinv Hlen] Hd].
  - split; [by apply init_inv|]. unfold team_init; cbn. by rewrite length_replicate.
  - done.
  - rewrite (done_final _ _ Hinv Hd), Hlen. done.
Qed.
End TeamFacts.

(** ** Enumerating the coordinates of an extent *)

Lemma in_zrange n x : In x (zrange n) <-> 0 <= x < n.
Proof.
  unfold zrange. rewrite in_map_iff. split.
  - intros (k & <- & Hk%in_seq). lia.
  - intros H. exists (Z.to_nat x). split; [lia|]. apply in_seq. lia.
Qed.

Lemma length_zrange n : length (zrange n) = Z.to_nat n.
Proof. unfold zrange. by rewrite length_map, length_seq. Qed.

Lemma zrange_nonpos n : n <= 0 -> zrange n = [].
Proof. intros H. unfold zrange. replace (Z.to_nat n) with 0%nat by lia. done. Qed.

Lemma flat_map_ext_In {A B} (f g : A -> list B) (l : list A) :
  (forall x, In x l -> f x = g x) -> flat_map f l = flat_map g l.
Proof.
  induction l as [|a l IH]; cbn; [done|]. intros H.
  rewrite (H a) by auto. f_equal. apply IH. auto.
Qed.

Lemma map_flat_map {A B C} (f : B -> C) (g : A -> list B) (l : list A) :
  map f (flat_map g l) = flat_map (fun x => map f (g x)) l.
Proof. induction l as [|a l IH]; cbn; [done|]. by rewrite map_app, IH. Qed.

Lemma flat_map_map {A B C} (f : A -> B) (g : B -> list C) (l : list A) :
  flat_map g (map f l) = flat_map (fun x => g (f x)) l.
Proof. induction l as [|a l IH]; cbn; [done|]. by rewrite IH. Qed.

Lemma flat_map_flat_map {A B C} (f : A -> list B) (g : B -> list C) (l : list A) :
  flat_map g (flat_map f l) = flat_map (fun x => flat_map g (f x)) l.
Proof. induction l as [|a l IH]; cbn; [done|]. by rewrite flat_map_app, IH. Qed.

Lemma flat_map_nil_fun {A B} (l : list A) : flat_map (fun _ : A => @nil B) l = [].
Proof. induction l; cbn; auto. Qed.

Lemma length_flat_map_const {A B} (f : A -> list B) (l : list A) k :
  (forall x, In x l -> length (f x) = k) -> length (flat_map f l) = (length l * k)%nat.
Proof.
  induction l as [|a l IH]; cbn; [done|]. intros H.
  rewrite length_app, (H a), IH by auto. done.
Qed.

Lemma seq_from s n : seq s n = map (fun r => (s + r)%nat) (seq 0 n).
Proof.
  induction n as [|n IH]; [done|].
  rewrite !seq_S, map_app, <- IH. done.
Qed.

Lemma seq_mul a b :
  seq 0 (a * b) = flat_map (fun q => map (fun r => (q * a + r)%nat) (seq 0 a)) (seq 0 b).
Proof.
  induction b as [|b IH].
  - by rewrite Nat.mul_0_r.
  - rewrite seq_S, flat_map_app, <- IH; cbn [flat_map]. rewrite app_nil_r.
    replace (a * S b)%nat with (a * b + a)%nat by lia.
    rewrite seq_app. f_equal. cbn [Nat.add].
    rewrite (seq_from (a * b)). apply map_ext. intros. lia.
Qed.

Lemma zrange_mul a b :
  0 <= a -> 0 <= b ->
  zrange (a * b) = flat_map (fun q => map (fun r => q * a + r) (zrange a)) (zrange b).
Proof.
  intros Ha Hb. unfold zrange.
  rewrite Z2Nat.inj_mul, seq_mul, map_flat_map, flat_map_map by lia.
  apply flat_map_ext_In. intros q _. rewrite !map_map.
  apply map_ext. intros r. lia.
Qed.

Lemma all_coords_rule e :
  1 <= at0 e -> 1 <= at1 e -> 0 <= at2 e ->
  all_coords e = map (delinearization_rule e) (zrange (prod3 e)).
Proof.
  destruct e as [e0 e1 e2]; cbn [at0 at1 at2]. intros H0 H1 H2.
  unfold prod3, all_coords; cbn [at0 at1 at2].
  rewrite (zrange_mul (e0 * e1) e2), (zrange_mul e0 e1) by lia.
  rewrite map_flat_map. apply flat_map_ext_In. intros z Hz%in_zrange.
  rewrite map_flat_map, map_flat_map. apply flat_map_ext_In. intros y Hy%in_zrange.
  rewrite !map_map. apply map_ext_in. intros x Hx%in_zrange.
  replace (z * (e0 * e1) + (y * e0 + x))
    with (linearize (Vec3 x y z) (Vec3 e0 e1 e2)) by (unfold linearize; cbn; ring).
  symmetry. apply rule_linearize; lia.
Qed.

Lemma NoDup_zrange n : NoDup (zrange n).
Proof.
  unfold zrange. apply NoDup_fmap_2; [|apply NoDup_seq].
  intros x y. lia.
Qed.

Lemma NoDup_all_coords e :
  1 <= at0 e -> 1 <= at1 e -> 0 <= at2 e -> NoDup (all_coords e).
Proof.
  intros H0 H1 H2. rewrite all_coords_rule by done.
  apply (NoDup_fmap_2_strong (delinearization_rule e)); [|apply NoDup_zrange].
  intros t t' _ _ Heq. destruct e as [e0 e1 e2]; cbn [at0 at1 at2] in *.
  rewrite <- (linearize_rule e0 e1 e2 t), <- (linearize_rule e0 e1 e2 t') by done.
  by rewrite Heq.
Qed.

Lemma in_all_coords c e : In c (all_coords e) <-> valid_coord c e.
Proof.
  unfold all_coords, valid_coord. rewrite in_flat_map. split.
  - intros (z & Hz%in_zrange & (y & Hy%in_zrange & (x & <- & Hx%in_zrange)%in_map_iff)%in_flat_map).
    cbn. lia.
  - intros (Hx & Hy & Hz). destruct c as [x y z]; cbn in *.
    exists z. split; [by apply in_zrange|]. apply in_flat_map.
    exists y. split; [by apply in_zrange|]. apply in_map_iff.
    exists x. split; [done|by apply in_zrange].
Qed.

Lemma length_all_coords e :
  0 <= at0 e -> 0 <= at1 e -> 0 <= at2 e ->
  length (all_coords e) = Z.to_nat (prod3 e).
Proof.
  intros H0 H1 H2. unfold all_coords, prod3.
  rewrite (length_flat_map_const _ _ (Z.to_nat (at1 e) * Z.to_nat (at0 e))%nat).
  - rewrite length_zrange, !Z2Nat.inj_mul by lia. lia.
  - intros z _. rewrite (length_flat_map_const _ _ (Z.to_nat (at0 e))).
    + by rewrite length_zrange.
    + intros y _. by rewrite length_map, length_zrange.
Qed.

Lemma all_coords_empty e :
  at0 e <= 0 \/ at1 e <= 0 \/ at2 e <= 0 -> all_coords e = [].
Proof.
  unfold all_coords. intros [H|[H|H]].
  - rewrite (zrange_nonpos (at0 e)) by done. cbn.
    erewrite flat_map_ext; [apply flat_map_nil_fun|].
    intros z. cbn. apply flat_map_nil_fun.
  - rewrite (zrange_nonpos (at1 e)) by done. cbn. apply flat_map_nil_fun.
  - by rewrite (zrange_nonpos (at2 e)).
Qed.

Lemma getIdxBlockKernel_all b :
  1 <= at0 b -> 1 <= at1 b -> 1 <= at2 b -> prod3 b <= INT_MAX ->
  map (fun i : nat => getIdxBlockKernel b (Z.of_nat i)) (seq 0 (Z.to_nat (prod3 b)))
  = map Some (all_coords b).
Proof.
  intros H0 H1 H2 Hmax. rewrite all_coords_rule by lia.
  unfold zrange. rewrite !map_map. apply map_ext_in. intros i Hi%in_seq.
  destruct b as [b0 b1 b2]; unfold prod3, INT_MAX in *; cbn [at0 at1 at2] in *.
  rewrite getIdxBlockKernel_no_wrap by (unfold INT_MAX; nia).
  rewrite code_expressions_rule by lia. done.
Qed.

(** ** The dispatch loop *)
Lemma kernel_tail_isolated calls :
  exists r, kernel_code calls ++ syncBlockKernels = IBarrier :: r /\
            isolatedb (kernel_code calls ++ syncBlockKernels) = true.
Proof.
  induction calls as [|c calls (r & Hr & Hiso)]; [by exists []|].
  unfold kernel_code in *. cbn [flat_map]. rewrite <- app_assoc, Hr in *.
  destruct c; cbn; eexists; (split; [reflexivity|]); cbn in Hiso |- *; done.
Qed.

Lemma isolated_region_code calls : isolated (region_code calls).
Proof.
  apply isolatedb_spec. unfold region_code.
  destruct (kernel_tail_isolated calls) as (r & Hr & Hiso).
  rewrite Hr in *. cbn in Hiso |- *. done.
Qed.

Lemma for_uint32_prefix_inv {St} (I : list Z -> St -> Prop) n (body : Z -> St -> St) s :
  I [] s ->
  (forall pre b s, 0 <= b < n -> I pre s -> I (pre ++ [b]) (body b s)) ->
  I (zrange n) (for_uint32 n body s).
Proof.
  intros H0 Hstep. unfold for_uint32.
  assert (Hgen : forall l pre s, (forall b, In b l -> 0 <= b < n) -> I pre s ->
            I (pre ++ l) (fold_left (fun s b => body b s) l s)).
  { induction l as [|b l IH]; intros pre s' Hl Hpre; cbn.
    - by rewrite app_nil_r.
    - change (b :: l) with ([b] ++ l). rewrite app_assoc. apply IH.
      + intros. apply Hl. by right.
      + apply Hstep; [apply Hl; by left|done]. }
  apply (Hgen (zrange n) [] s); [|done]. intros b. apply in_zrange.
Qed.

Section Dispatch.
Context {Args : Type}.
Variable rt : OmpRuntime.
Variable kernel : @Kernel Args.
Variable oracle : vec3 -> list nat.
Variable ws : WorkSize.
Variable args : Args.

Lemma blocks_trace_app m c1 c2 :
  blocks_trace rt kernel ws args m (c1 ++ c2)
  = blocks_trace rt kernel ws args m c1
    ++ blocks_trace rt kernel ws args (blocks_mem kernel ws args m c1) c2.
Proof. revert m. induction c1 as [|gc c1 IH]; intros m; cbn; [done|]. by rewrite IH. Qed.

Lemma blocks_mem_app m c1 c2 :
  blocks_mem kernel ws args m (c1 ++ c2)
  = blocks_mem kernel ws args (blocks_mem kernel ws args m c1) c2.
Proof. revert m. induction c1 as [|gc c1 IH]; intros m; cbn; [done|]. by rewrite IH. Qed.

Lemma omp_parallel_final sched num (rg : @region Args) mem :
  omp_conforming rt -> isolated (rg_code rg) ->
  omp_parallel rt sched num rg mem = team_final rg (omp_team_size rt num) mem.
Proof.
  intros (_ & _ & Hpos) Hiso. unfold omp_parallel. apply run_team_final; auto.
Qed.

Lemma run_block_dispatched st0 cs bz by_ bx st :
  omp_conforming rt ->
  dispatched rt kernel ws args st0 cs st ->
  at1 (m_v3uiGridBlockIdx (st_acc st)) = by_ ->
  at2 (m_v3uiGridBlockIdx (st_acc st)) = bz ->
  let st' := run_block rt kernel oracle args bz by_ bx st in
  dispatched rt kernel ws args st0 (cs ++ [Vec3 bx by_ bz]) st' /\
  at1 (m_v3uiGridBlockIdx (st_acc st')) = by_ /\
  at2 (m_v3uiGridBlockIdx (st_acc st')) = bz.
Proof.
  intros Hrt (Hws & Hext & Hnt & Hmem & Htr) Hy Hz. unfold run_block.
  cbn [set_idx st_acc m_WorkSize m_v3uiGridBlockIdx m_vvuiSharedMem
       m_vuiExternalSharedMem st_nthreads_var st_trace st_dyn_var].
  assert (Hidx : set_at0 (m_v3uiGridBlockIdx (st_acc st)) bx = Vec3 bx by_ bz).
  { unfold set_at0. by rewrite Hy, Hz. }
  rewrite Hidx, Hws.
  rewrite omp_parallel_final by (done || apply isolated_region_code).
  unfold dispatched.
  cbn [st_acc m_WorkSize m_v3uiGridBlockIdx m_vvuiSharedMem m_vuiExternalSharedMem
       st_nthreads_var st_trace team_final tm_mem tm_threads at1 at2 rg_code].
  repeat split; try done.
  - rewrite blocks_mem_app, <- Hmem. done.
  - rewrite blocks_trace_app, Htr, <- Hmem, <- app_assoc. do 2 f_equal. cbn.
    unfold block_record_of, block_team, block_region. cbn [rg_code].
    rewrite length_fmap, length_seq. f_equal.
    rewrite <- list_fmap_compose. done.
Qed.

Lemma dispatch_dispatched g st :
  omp_conforming rt ->
  m_WorkSize (st_acc st) = ws ->
  dispatched rt kernel ws args st (all_coords g) (dispatch rt kernel oracle args g st).
Proof.
  intros Hrt Hws. unfold dispatch, all_coords.
  assert (Hset : forall f st1 cs, dispatched rt kernel ws args st cs st1 -> dispatched rt kernel ws args st cs (set_idx f st1)).
  { intros f st1 cs H. exact H. }
  apply (for_uint32_prefix_inv
           (fun pre st1 => dispatched rt kernel ws args st
              (flat_map (fun z => flat_map (fun y => map (fun x => Vec3 x y z)
                 (zrange (at0 g))) (zrange (at1 g))) pre) st1)).
  { cbn. repeat split; try done. by rewrite app_nil_r. }
  intros prez bz st1 _ H1. rewrite flat_map_app; cbn [flat_map]. rewrite app_nil_r.
  apply (for_uint32_prefix_inv
           (fun pre st2 => dispatched rt kernel ws args st
              (flat_map (fun z => flat_map (fun y => map (fun x => Vec3 x y z)
                 (zrange (at0 g))) (zrange (at1 g))) prez
               ++ flat_map (fun y => map (fun x => Vec3 x y bz) (zrange (at0 g))) pre) st2
              /\ at2 (m_v3uiGridBlockIdx (st_acc st2)) = bz)).
  { cbn [flat_map]. rewrite app_nil_r. split; [by apply Hset|done]. }
  intros prey by_ st2 _ [H2 Hz]. rewrite flat_map_app; cbn [flat_map]. rewrite app_nil_r.
  enough (Hin : dispatched rt kernel ws args st
             ((flat_map (fun z => flat_map (fun y => map (fun x => Vec3 x y z)
                 (zrange (at0 g))) (zrange (at1 g))) prez
               ++ flat_map (fun y => map (fun x => Vec3 x y bz) (zrange (at0 g))) prey)
              ++ map (fun x => Vec3 x by_ bz) (zrange (at0 g)))
             (for_uint32 (at0 g) (fun bx st3 => run_block rt kernel oracle args bz by_ bx st3)
                (set_idx (fun v => set_at1 v by_) st2))
           /\ at1 (m_v3uiGridBlockIdx (st_acc
                (for_uint32 (at0 g) (fun bx st3 => run_block rt kernel oracle args bz by_ bx st3)
                (set_idx (fun v => set_at1 v by_) st2)))) = by_
           /\ at2 (m_v3uiGridBlockIdx (st_acc
                (for_uint32 (at0 g) (fun bx st3 => run_block rt kernel oracle args bz by_ bx st3)
                (set_idx (fun v => set_at1 v by_) st2)))) = bz).
  { rewrite <- app_assoc in Hin. tauto. }
  apply (for_uint32_prefix_inv
           (fun pre st3 => dispatched rt kernel ws args st
              ((flat_map (fun z => flat_map (fun y => map (fun x => Vec3 x y z)
                 (zrange (at0 g))) (zrange (at1 g))) prez
               ++ flat_map (fun y => map (fun x => Vec3 x y bz) (zrange (at0 g))) prey)
               ++ map (fun x => Vec3 x by_ bz) pre) st3
              /\ at1 (m_v3uiGridBlockIdx (st_acc st3)) = by_
              /\ at2 (m_v3uiGridBlockIdx (st_acc st3)) = bz)).
  { cbn [map]. rewrite app_nil_r. split; [by apply Hset|]. split; [done|]. exact Hz. }
  intros prex bx st3 _ (H3 & Hy3 & Hz3).
  rewrite map_app, app_assoc. cbn [map].
  apply run_block_dispatched; done.
Qed.
End Dispatch.

(** ** Launches *)
Section Launch.
Context {Args : Type}.
Variable rt : OmpRuntime.
Variable kernel : @Kernel Args.
Variable oracle : vec3 -> list nat.
Variable ws : WorkSize.
Variable args : Args.

Lemma launch_thrown st0 :
  to_uint32 (omp_max_threads rt) < prod3 (blockThreadExtent ws) ->
  KernelExecutor_call rt kernel oracle ws args st0
  = Thrown (MkError (prod3 (blockThreadExtent ws)) (to_uint32 (omp_max_threads rt)))
           (MkState (MkAcc ws (m_v3uiGridBlockIdx (st_acc st0))
                           (m_vvuiSharedMem (st_acc st0))
                           (m_vuiExternalSharedMem (st_acc st0)))
                    1024 (st_dyn_var st0) (st_trace st0)).
Proof.
  intros H. unfold KernelExecutor_call, getSizeBlockKernelsLinearMax,
    getSize_Block_Kernels_Linear. cbn [st_acc m_WorkSize].
  apply Z.ltb_lt in H. by rewrite H.
Qed.

Lemma launch_returned st0 :
  omp_conforming rt ->
  prod3 (blockThreadExtent ws) <= to_uint32 (omp_max_threads rt) ->
  exists st',
    KernelExecutor_call rt kernel oracle ws args st0 = Returned st' /\
    m_WorkSize (st_acc st') = ws /\
    m_vvuiSharedMem (st_acc st') = [] /\
    m_vuiExternalSharedMem (st_acc st') = [] /\
    st_trace st'
      = st_trace st0
        ++ blocks_trace rt kernel ws args (m_vvuiSharedMem (st_acc st0))
                        (all_coords (gridBlockExtent ws)).
Proof.
  intros Hrt H. unfold KernelExecutor_call, getSizeBlockKernelsLinearMax,
    getSize_Block_Kernels_Linear. cbn [st_acc m_WorkSize].
  apply Z.ltb_ge in H. rewrite H.
  eexists. split; [reflexivity|].
  cbn [st_acc m_WorkSize m_vvuiSharedMem m_vuiExternalSharedMem st_trace
       st_nthreads_var st_dyn_var m_v3uiGridBlockIdx].
  match goal with |- context [dispatch _ _ _ _ ?g ?s] =>
    destruct (dispatch_dispatched rt kernel oracle ws args g s Hrt eq_refl)
      as (Hws & _ & _ & _ & Htr) end.
  repeat split; try done.
Qed.

Lemma kernel_events_app (l1 l2 : list (@event Args)) :
  kernel_events (l1 ++ l2) = kernel_events l1 ++ kernel_events l2.
Proof. apply flat_map_app. Qed.

Lemma kernel_events_tail (rg : @region Args) i m c :
  Forall (fun x => x <> IKernelEnter) c -> kernel_events (log_of rg i m c) = [].
Proof.
  intros H. revert m. induction H as [|x c Hx Hc IH]; intros m; cbn [log_of]; [done|].
  rewrite kernel_events_app, IH, app_nil_r.
  destruct x; try done. cbn. by destruct (Nat.eqb i 0).
Qed.

Lemma kernel_code_no_enter calls :
  Forall (fun x => x <> IKernelEnter) (kernel_code calls ++ syncBlockKernels).
Proof.
  apply Forall_app. split; [|by repeat constructor].
  unfold kernel_code. induction calls as [|c calls IH]; cbn [flat_map]; [constructor|].
  apply Forall_app. split; [|done]. destruct c; by repeat constructor.
Qed.

Lemma block_invocations_of gc m :
  block_invocations (block_record_of rt kernel ws args gc m)
  = map (fun i : nat => (gc, getIdxBlockKernel (blockThreadExtent ws) (Z.of_nat i), args))
        (seq 0 (block_team rt ws)).
Proof.
  unfold block_invocations, block_record_of. cbn [br_logs].
  rewrite flat_map_map.
  induction (seq 0 (block_team rt ws)) as [|i l IH]; cbn [flat_map map]; [done|].
  rewrite IH. unfold block_region at 1 2; cbn [rg_code]. unfold region_code.
  cbn [log_of]. rewrite kernel_events_app, kernel_events_tail by apply kernel_code_no_enter.
  done.
Qed.

Lemma invocations_blocks_trace m cs :
  invocations (blocks_trace rt kernel ws args m cs)
  = flat_map (fun gc =>
      map (fun i : nat => (gc, getIdxBlockKernel (blockThreadExtent ws) (Z.of_nat i), args))
          (seq 0 (block_team rt ws))) cs.
Proof.
  revert m. induction cs as [|gc cs IH]; intros m; cbn [blocks_trace flat_map]; [done|].
  unfold invocations in *. cbn [flat_map]. by rewrite IH, block_invocations_of.
Qed.

Lemma blocks_trace_blocks m cs :
  map br_block (blocks_trace rt kernel ws args m cs) = cs.
Proof. revert m. induction cs as [|gc cs IH]; intros m; cbn; [done|]. by rewrite IH. Qed.

Lemma chain_blocks_trace m cs :
  chain m (blocks_trace rt kernel ws args m cs) (blocks_mem kernel ws args m cs).
Proof.
  revert m. induction cs as [|gc cs IH]; intros m; cbn [blocks_trace blocks_mem].
  - constructor.
  - econstructor; [done|done|]. apply IH.
Qed.
End Launch.


Lemma conforming_max rt :
  omp_conforming rt -> to_uint32 (omp_max_threads rt) = omp_max_threads rt.
Proof. intros ((H1 & H2) & _). unfold to_uint32, INT_MAX in *. apply Z.mod_small. lia. Qed.

Section LaunchFacts.
Context {Args : Type}.
Variable rt : OmpRuntime.
Variable kernel : @Kernel Args.
Variable oracle : vec3 -> list nat.

Lemma block_team_validated ws :
  omp_conforming rt ->
  1 <= prod3 (blockThreadExtent ws) <= to_uint32 (omp_max_threads rt) ->
  block_team rt ws = Z.to_nat (prod3 (blockThreadExtent ws)).
Proof.
  intros Hrt H. rewrite conforming_max in H by done.
  destruct Hrt as ((H1 & H2) & Hex & _).
  unfold block_team, getSize_Block_Kernels_Linear, to_uint32, INT_MAX in *.
  rewrite Z.mod_small by lia. apply Hex. lia.
Qed.

Lemma kernel_events_region (args : Args) ws gc i m :
  kernel_events (log_of (block_region kernel ws args gc) i m
                        (rg_code (block_region kernel ws args gc)))
  = [(gc, getIdxBlockKernel (blockThreadExtent ws) (Z.of_nat i), args)].
Proof.
  unfold block_region; cbn [rg_code]. unfold region_code. cbn [log_of].
  rewrite kernel_events_app, kernel_events_tail by apply kernel_code_no_enter. done.
Qed.

Lemma last_log_region (args : Args) ws gc i m :
  last (log_of (block_region kernel ws args gc) i m
               (rg_code (block_region kernel ws args gc))) = Some EvBarrier.
Proof.
  unfold block_region; cbn [rg_code]. unfold region_code, syncBlockKernels.
  rewrite app_comm_cons, log_of_snoc. cbn [instr_events]. apply last_snoc.
Qed.

Lemma blocks_trace_Forall (P : @block_record Args -> Prop) ws args m cs :
  (forall gc m', P (block_record_of rt kernel ws args gc m')) ->
  Forall P (blocks_trace rt kernel ws args m cs).
Proof.
  intros H. revert m. induction cs as [|gc cs IH]; intros m; cbn; constructor; auto.
Qed.
End LaunchFacts.

(** ** Launches, blocks and shared memory: the main theorems *)

Lemma omp_runtime_256_conforming : omp_conforming omp_runtime_256.
Proof.
  unfold omp_conforming, omp_runtime_256, INT_MAX; cbn. split; [lia|]. split.
  - intros n Hn. destruct (Z.leb_spec 1 n); [done|lia].
  - intros n. destruct (Z.leb_spec 1 n); lia.
Qed.

Section LaunchTheorems.
Context {Args : Type}.


(** C5 (as amended): the shared-memory segments are discarded once, when all
    blocks of the launch have been processed.  Between blocks nothing is
    discarded: each block starts with every segment its predecessors
    created, every thread of a block ends by passing the terminal barrier,
    and after the launch both the segment list and the extern buffer are
    empty. *)
Theorem segments_discarded_after_all_blocks (rt : OmpRuntime) (kernel : @Kernel Args)
    (oracle : vec3 -> list nat) (ws : WorkSize) (args : Args) (st0 : exec_state) :
  omp_conforming rt ->
  prod3 (blockThreadExtent ws) <= to_uint32 (omp_max_threads rt) ->
  exists st' new m,
    KernelExecutor_call rt kernel oracle ws args st0 = Returned st' /\
    st_trace st' = st_trace st0 ++ new /\
    chain (m_vvuiSharedMem (st_acc st0)) new m /\
    Forall (fun br => Forall (fun log => last log = Some EvBarrier) (br_logs br)) new /\
    m_vvuiSharedMem (st_acc st') = [] /\
    m_vuiExternalSharedMem (st_acc st') = [].
Proof.
  intros Hrt Hval.
  destruct (launch_returned rt kernel oracle ws args st0 Hrt Hval)
    as (st' & Hcall & _ & Hmem & Hext & Htr).
  exists st'. eexists. eexists. split; [done|]. split; [done|].
  split; [apply chain_blocks_trace|]. split; [|done].
  apply blocks_trace_Forall. intros gc m'. unfold block_record_of. cbn [br_logs].
  apply List.Forall_forall. intros log (i & <- & _)%in_map_iff. apply last_log_region.
Qed.

(** C8 (the code on a zero-sized block extent): the launch passes validation
    and returns, but every block of the grid still runs a parallel region
    with at least one thread, so the kernel body is invoked. *)
Theorem zero_block_extent_invokes (rt : OmpRuntime) (kernel : @Kernel Args)
    (oracle : vec3 -> list nat) (g b : vec3) (args : Args) (st0 : exec_state) :
  omp_conforming rt ->
  1 <= at0 g -> 1 <= at1 g -> 1 <= at2 g ->
  prod3 b = 0 ->
  exists st' new,
    KernelExecutor_call rt kernel oracle (MkWorkSize g b) args st0 = Returned st' /\
    st_trace st' = st_trace st0 ++ new /\
    (1 <= length (invocations new))%nat.
Proof.
  intros Hrt Hg0 Hg1 Hg2 Hb.
  assert (Hval : prod3 (blockThreadExtent (MkWorkSize g b))
                 <= to_uint32 (omp_max_threads rt)).
  { cbn. rewrite Hb, conforming_max by done. destruct Hrt as ((? & _) & _). lia. }
  destruct (launch_returned rt kernel oracle (MkWorkSize g b) args st0 Hrt Hval)
    as (st' & Hcall & _ & _ & _ & Htr).
  exists st'. eexists. split; [done|]. split; [done|].
  rewrite invocations_blocks_trace. cbn [gridBlockExtent].
  rewrite (length_flat_map_const _ _ (block_team rt (MkWorkSize g b)))
    by (intros; by rewrite length_map, length_seq).
  rewrite length_all_coords by lia.
  destruct Hrt as (_ & _ & Hpos). pose proof (Hpos (to_uint32 (prod3 b))) as Hn.
  unfold block_team, getSize_Block_Kernels_Linear. cbn [blockThreadExtent].
  assert (1 <= Z.to_nat (prod3 g))%nat by (unfold prod3; nia). nia.
Qed.

Lemma zero_grid_extent_no_invocation (rt : OmpRuntime) (kernel : @Kernel Args)
    (oracle : vec3 -> list nat) (g b : vec3) (args : Args) (st0 : exec_state) :
  omp_conforming rt ->
  at0 g = 0 \/ at1 g = 0 \/ at2 g = 0 ->
  prod3 b <= to_uint32 (omp_max_threads rt) ->
  exists st',
    KernelExecutor_call rt kernel oracle (MkWorkSize g b) args st0 = Returned st' /\
    st_trace st' = st_trace st0.
Proof.
  intros Hrt Hg Hval.
  destruct (launch_returned rt kernel oracle (MkWorkSize g b) args st0 Hrt Hval)
    as (st' & Hcall & _ & _ & _ & Htr).
  exists st'. split; [done|]. rewrite Htr. cbn [gridBlockExtent].
  rewrite all_coords_empty by lia. cbn. by rewrite app_nil_r.
Qed.
End LaunchTheorems.



Lemma isolated_allocBlockSharedMem sizeofT n : isolated (allocBlockSharedMem sizeofT n).
Proof. apply isolatedb_spec. reflexivity. Qed.

Section BlockTheorems.
Context {Args : Type}.

(** C6 (what the code does): a collective call of allocBlockSharedMem<T,N> by
    the n >= 1 threads of a block appends exactly one segment, whatever the
    interleaving; thread 0 alone emplaces it, between the two barriers; every
    thread returns the data pointer of that new segment.  The segment has N
    bytes, so for sizeof(T) > 1 it cannot hold N elements of T. *)
Theorem collective_alloc_appends_bytes (gc b : vec3) (args : Args) (sched : list nat)
    (n : nat) (sizeofT N : Z) (mem : list segment) :
  (1 <= n)%nat ->
  let tm := collective_alloc gc b args sched n sizeofT N mem in
  tm_mem tm = mem ++ [replicate (Z.to_nat N) 0] /\
  length (tm_threads tm) = n /\
  (forall i th, tm_threads tm !! i = Some th ->
     th_log th = [EvBarrier] ++ (if Nat.eqb i 0 then [EvEmplaceBack N] else [])
                 ++ [EvBarrier; EvBack (Some (length mem))]) /\
  (1 <= N -> 1 < sizeofT -> ~ segment_holds (replicate (Z.to_nat N) 0) sizeofT N).
Proof.
  intros Hn tm. subst tm. unfold collective_alloc.
  rewrite run_team_final by (done || apply isolated_allocBlockSharedMem).
  unfold team_final; cbn [tm_mem tm_threads rg_code].
  split; [|split; [|split]].
  - unfold allocBlockSharedMem, syncBlockKernels, segs_of; cbn. done.
  - by rewrite length_fmap, length_seq.
  - intros i th. rewrite list_lookup_fmap.
    destruct (seq 0 n !! i) as [j|] eqn:Hj; [|done].
    apply lookup_seq in Hj as [-> _]. intros [= <-]. cbn [th_log].
    unfold allocBlockSharedMem, syncBlockKernels. cbn [app log_of instr_events].
    unfold segs_of; cbn [flat_map app]. rewrite !app_nil_r, back_data_snoc. done.
  - intros HN HT. unfold segment_holds. rewrite length_replicate. nia.
Qed.

(** C9: instantiating allocBlockSharedMem<T,0> fails the static assertion;
    an instantiation that builds has a strictly positive element count, so no
    launch of a kernel that builds ever emplaces a zero-element segment. *)
Theorem zero_elements_rejected_at_build_time :
  (forall sizeofT,
     allocBlockSharedMem_instantiate sizeofT 0
     = StaticAssertFailed
         "The number of elements to allocate in block shared memory must not be zero!") /\
  (forall sizeofT N code,
     allocBlockSharedMem_instantiate sizeofT N = Built code ->
     0 < N /\ code = allocBlockSharedMem sizeofT N) /\
  (forall (rt : OmpRuntime) (kernel : @Kernel Args) (oracle : vec3 -> list nat)
          (ws : WorkSize) (args : Args) (st0 : exec_state),
     omp_conforming rt -> kernel_builds kernel ->
     prod3 (blockThreadExtent ws) <= to_uint32 (omp_max_threads rt) ->
     exists st' new,
       KernelExecutor_call rt kernel oracle ws args st0 = Returned st' /\
       st_trace st' = st_trace st0 ++ new /\
       Forall (fun br => forall log n,
                 In log (br_logs br) -> In n (emplace_events log) -> 0 < n) new).
Proof.
  split; [done|]. split.
  - intros sizeofT N code. unfold allocBlockSharedMem_instantiate.
    destruct (Z.ltb_spec 0 N); [|done]. intros [= <-]. done.
  - intros rt kernel oracle ws args st0 Hrt Hb Hval.
    destruct (launch_returned rt kernel oracle ws args st0 Hrt Hval)
      as (st' & Hcall & _ & _ & _ & Htr).
    exists st'. eexists. split; [done|]. split; [done|].
    apply blocks_trace_Forall. intros gc m' log n Hlog Hn.
    unfold block_record_of in Hlog. cbn [br_logs] in Hlog.
    apply in_map_iff in Hlog as (i & <- & _).
    assert (Hin : In (IEmplaceBack n) (rg_code (block_region kernel ws args gc))).
    { revert Hn. generalize (rg_code (block_region kernel ws args gc)). intros c.
      revert m'. induction c as [|x c IH]; intros m'; cbn [log_of]; [done|].
      unfold emplace_events in *. rewrite flat_map_app, in_app_iff.
      intros [H|H]; [|right; by eapply IH].
      left. destruct x; cbn in H; try done.
      destruct (Nat.eqb i 0); cbn in H; [|done]. destruct H as [->|[]]. done. }
    unfold block_region, region_code in Hin; cbn [rg_code] in Hin.
    destruct Hin as [[=]|Hin]. apply in_app_iff in Hin as [Hin|[[=]|[]]].
    unfold kernel_code in Hin. apply in_flat_map in Hin as (c & Hc & Hcode).
    destruct (Hb _ _ _ Hc) as (code & Hbuilt).
    destruct c as [|sizeofT N]; cbn in Hcode.
    + destruct Hcode as [[=]|[]].
    + cbn in Hbuilt. unfold allocBlockSharedMem_instantiate in Hbuilt.
      destruct (Z.ltb_spec 0 N); [|done].
      destruct Hcode as [[=]|[[= <-]|[[=]|[[=]|[]]]]]. done.
Qed.
End BlockTheorems.

Lemma collective_alloc_appends_bytes_witness :
  let tm := collective_alloc (Vec3 0 0 0) (Vec3 2 1 1) tt [1; 0; 1]%nat 2 4 4 [] in
  tm_mem tm = [[0; 0; 0; 0]] /\ ~ segment_holds [0; 0; 0; 0] 4 4.
Proof.
  destruct (collective_alloc_appends_bytes (Vec3 0 0 0) (Vec3 2 1 1) tt [1; 0; 1]%nat
              2 4 4 [] ltac:(lia)) as (H1 & _ & _ & H2).
  split; [exact H1|]. apply H2; lia.
Defined.

(** C5 (as stated) fails: in a launch of two blocks whose kernel allocates one
    segment, the first block's segment is still in the list when the second
    block starts. *)
Lemma first_block_segment_outlives_block :
  exists st' br1 br2,
    KernelExecutor_call omp_runtime_256 kernel_one_alloc (fun _ => [])
      (MkWorkSize (Vec3 2 1 1) (Vec3 1 1 1)) tt st_fresh = Returned st' /\
    st_trace st' = [br1; br2] /\
    br_before br1 = [] /\ br_after br1 = [[0; 0]] /\ br_before br2 = [[0; 0]] /\
    ~ discards_between_blocks [] (st_trace st').
Proof.
  do 3 eexists. split; [vm_compute; reflexivity|]. cbn [st_trace].
  split; [reflexivity|]. cbn [br_before br_after]. do 3 (split; [reflexivity|]).
  intros H. inversion H as [|? ? _ H2]. inversion H2 as [|? ? H3 _]. discriminate H3.
Qed.

Lemma segments_discarded_after_all_blocks_witness :
  exists st' new m,
    KernelExecutor_call omp_runtime_256 kernel_one_alloc (fun _ => [])
      (MkWorkSize (Vec3 2 1 1) (Vec3 1 1 1)) tt st_fresh = Returned st' /\
    st_trace st' = st_trace st_fresh ++ new /\
    chain (m_vvuiSharedMem (st_acc st_fresh)) new m /\
    m_vvuiSharedMem (st_acc st') = [].
Proof.
  destruct (segments_discarded_after_all_blocks omp_runtime_256 kernel_one_alloc
              (fun _ => []) (MkWorkSize (Vec3 2 1 1) (Vec3 1 1 1)) tt st_fresh
              omp_runtime_256_conforming)
    as (st' & new & m & H1 & H2 & H3 & _ & H4 & _); [vm_compute; congruence|].
  exists st', new, m. split; [exact H1|]. split; [exact H2|]. split; [exact H3|exact H4].
Defined.

Lemma zero_block_extent_invokes_witness :
  exists st' new,
    KernelExecutor_call omp_runtime_256 kernel_plain (fun _ => [])
      (MkWorkSize (Vec3 1 1 1) (Vec3 0 1 1)) tt st_fresh = Returned st' /\
    st_trace st' = st_trace st_fresh ++ new /\
    (1 <= length (invocations new))%nat.
Proof.
  apply (zero_block_extent_invokes omp_runtime_256 kernel_plain (fun _ => [])
           (Vec3 1 1 1) (Vec3 0 1 1) tt st_fresh omp_runtime_256_conforming);
    cbn [at0 at1 at2]; try lia; reflexivity.
Defined.

Lemma zero_elements_rejected_at_build_time_witness :
  allocBlockSharedMem_instantiate 4 0
  = StaticAssertFailed
      "The number of elements to allocate in block shared memory must not be zero!" /\
  0 < 16.
Proof.
  destruct (@zero_elements_rejected_at_build_time unit) as (H0 & H1 & _).
  split; [apply H0|].
  apply (H1 4 16 (allocBlockSharedMem 4 16)). reflexivity.
Defined.

(** ** Concurrent atomic operations *)

Section AtomicFacts.
Context {T : Type}.
Variable initial : T.

Lemma prior_values_snoc (a : T) xs x :
  prior_values a (xs ++ [x]) = prior_values a xs ++ [apply_all xs a].
Proof.
  unfold apply_all. revert a.
  induction xs as [|y xs IH]; intros a; cbn; [done|]. by rewrite IH.
Qed.

Lemma atomic_init_inv calls : atomic_inv initial calls (atomic_init initial calls).
Proof.
  unfold atomic_init, atomic_inv; cbn [as_threads as_order as_lock as_cell map].
  split; [rewrite <- list_fmap_compose; apply list_fmap_id|].
  split.
  { intros i th Hi. rewrite list_lookup_fmap in Hi.
    destruct (calls !! i) as [v|]; [|done]. injection Hi as <-.
    unfold thread_inv; cbn [at_pc at_call at_before as_lock as_cell as_order as_threads]. split; [done|]. split; [tauto|done]. }
  split; [done|]. split; [constructor|]. split; [intros e []|]. split; [done|done].
Qed.

Lemma others_inv st st' i j thj :
  j <> i -> thread_inv initial st j thj ->
  (exists ext, as_order st' = as_order st ++ ext /\
               forall e, In e ext -> le_thread e = i) ->
  (forall h, h <> i -> as_lock st' = Some h <-> as_lock st = Some h) ->
  (as_lock st = Some j -> as_cell st' = as_cell st /\ as_order st' = as_order st) ->
  thread_inv initial st' j thj.
Proof.
  intros Hne [Hbef Hpc] (ext & Hord & Hext) Hlock Hsame. unfold thread_inv in *.
  assert (Hnin : ~ In j (map le_thread (as_order st)) ->
                 ~ In j (map le_thread (as_order st'))).
  { intros Hn. rewrite Hord, map_app, in_app_iff. intros [?|Hin]; [done|].
    apply in_map_iff in Hin as (e & <- & He). by apply Hne, Hext. }
  assert (Hl : as_lock st = Some j -> as_lock st' = Some j) by (intros; by apply Hlock).
  assert (Hl' : as_lock st <> Some j -> as_lock st' <> Some j).
  { intros Hn Hs. by apply Hn, Hlock. }
  split.
  - intros Hc. destruct (Hbef Hc) as [[k Hk] Hn]. split; [|done].
    exists (k ++ map le_thread ext). by rewrite Hord, map_app, Hk, app_assoc.
  - destruct (at_pc thj);
      try (destruct Hpc as (? & Hlk & ?); destruct (Hsame Hlk) as [-> ->]; by auto).
    + destruct Hpc; auto.
    + destruct Hpc; auto.
    + rewrite Hord. apply in_app_iff. by left.
Qed.

Lemma astep_inv calls i st st' :
  atomic_inv initial calls st -> astep i st = Some st' -> atomic_inv initial calls st'.
Proof.
  intros (Hvals & Hth & Hprior & Hnd & Hent & Hfree & Hheld). unfold astep.
  destruct (as_threads st !! i) as [th|] eqn:Hi; [|done].
  pose proof (Hth _ _ Hi) as [Hbef Hpc].
  assert (Hlt : (i < length (as_threads st))%nat) by (eapply lookup_lt_Some; eauto).
  assert (Hv : forall pc b,
             at_call <$> <[i := AThread (at_call th) pc b]> (as_threads st) = calls).
  { intros. rewrite list_fmap_insert; cbn. rewrite <- Hvals.
    apply list_insert_id. by rewrite list_lookup_fmap, Hi. }
  assert (Hent' : forall pc b e, In e (as_order st) ->
             ~ In i (map le_thread (as_order st)) ->
             exists th', <[i := AThread (at_call th) pc b]> (as_threads st) !! le_thread e
                         = Some th' /\
               at_call th' = le_call e /\ at_pc th' = AReturned (le_prior e)).
  { intros pc b e He Hn. destruct (Hent e He) as (th' & H1 & H2 & H3).
    exists th'. rewrite list_lookup_insert_ne; [done|].
    intros Heq. apply Hn, in_map_iff. exists e. auto. }
  assert (Hheld' : forall pc b h, as_lock st = Some h ->
             in_critical pc = true ->
             exists th', <[i := AThread (at_call th) pc b]> (as_threads st) !! h = Some th' /\
               in_critical (at_pc th') = true).
  { intros pc b h Hh Hc. destruct (decide (h = i)) as [->|Hne].
    - eexists. by rewrite list_lookup_insert_eq.
    - rewrite list_lookup_insert_ne by done. by apply Hheld. }
  destruct (at_pc th) as [| | |old|old|old] eqn:Epc.
  - (* the call *)
    intros [= <-]; unfold atomic_inv; cbn [as_threads as_lock as_cell as_order]. destruct Hpc as [Hn Hl].
    split; [apply Hv|]. split; [|repeat split; auto].
    + intros j thj. destruct (decide (j = i)) as [->|Hne].
      * rewrite list_lookup_insert_eq by done. intros [= <-]; unfold atomic_inv; cbn [as_threads as_lock as_cell as_order].
        unfold thread_inv; cbn [at_pc at_call at_before as_lock as_cell as_order as_threads]. split; [|done]. split; [done|done].
      * rewrite list_lookup_insert_ne by done. intros Hj.
        apply (others_inv st _ i); [done|by apply Hth| |done|done]; cbn.
        exists []. by rewrite app_nil_r.
    + cbn. intros h Hh. destruct (decide (h = i)) as [->|Hne]; [done|].
      rewrite list_lookup_insert_ne by done. by apply Hheld.
  - (* taking the lock *)
    destruct (as_lock st) as [h|] eqn:Hlk; [done|]. intros [= <-]; unfold atomic_inv; cbn [as_threads as_lock as_cell as_order].
    destruct Hpc as [Hn Hl].
    split; [apply Hv|]. split; [|repeat split; auto; try done].
    + intros j thj. destruct (decide (j = i)) as [->|Hne].
      * rewrite list_lookup_insert_eq by done. intros [= <-]; unfold atomic_inv; cbn [as_threads as_lock as_cell as_order].
        unfold thread_inv; cbn [at_pc at_call at_before as_lock as_cell as_order as_threads]. split; [intros _; apply Hbef; done|]. auto.
      * rewrite list_lookup_insert_ne by done. intros Hj.
        apply (others_inv st _ i); [done|by apply Hth| | |]; cbn.
        -- exists []. by rewrite app_nil_r.
        -- intros h Hh. rewrite Hlk. split; [intros [= ->]; done|done].
        -- by rewrite Hlk.
    + cbn. intros h [= <-]. eexists. by rewrite list_lookup_insert_eq.
  - (* the load *)
    intros [= <-]; unfold atomic_inv; cbn [as_threads as_lock as_cell as_order]. destruct Hpc as (Hn & Hl & Hc).
    split; [apply Hv|]. split; [|repeat split; auto].
    intros j thj. destruct (decide (j = i)) as [->|Hne].
    + rewrite list_lookup_insert_eq by done. intros [= <-]; unfold atomic_inv; cbn [as_threads as_lock as_cell as_order].
      unfold thread_inv; cbn [at_pc at_call at_before as_lock as_cell as_order as_threads]. split; [intros _; apply Hbef; done|]. auto.
    + rewrite list_lookup_insert_ne by done. intros Hj.
      apply (others_inv st _ i); [done|by apply Hth| |done|done]; cbn.
      exists []. by rewrite app_nil_r.
  - (* the store *)
    intros [= <-]; unfold atomic_inv; cbn [as_threads as_lock as_cell as_order]. destruct Hpc as (Hn & Hl & Hc & Ho).
    split; [apply Hv|]. split; [|repeat split; auto].
    + intros j thj. destruct (decide (j = i)) as [->|Hne].
      * rewrite list_lookup_insert_eq by done. intros [= <-]; unfold atomic_inv; cbn [as_threads as_lock as_cell as_order].
        unfold thread_inv; cbn [at_pc at_call at_before as_lock as_cell as_order as_threads]. split; [intros _; apply Hbef; done|].
        repeat split; auto. congruence.
      * rewrite list_lookup_insert_ne by done. intros Hj.
        apply (others_inv st _ i); [done|by apply Hth| |done|]; cbn.
        -- exists []. by rewrite app_nil_r.
        -- rewrite Hl. intros [= ->]. done.
    + cbn. rewrite Hl. done.
  - (* the unlock and return *)
    intros [= <-]; unfold atomic_inv; cbn [as_threads as_lock as_cell as_order]. destruct Hpc as (Hn & Hl & Ho & Hc).
    split; [apply Hv|]. split; [|split; [|split; [|split; [|split]]]]; cbn.
    + intros j thj. destruct (decide (j = i)) as [->|Hne].
      * rewrite list_lookup_insert_eq by done. intros [= <-]; unfold atomic_inv; cbn [as_threads as_lock as_cell as_order].
        unfold thread_inv; cbn [at_pc at_call at_before as_lock as_cell as_order as_threads]. split.
        -- intros _. destruct Hbef as [[k Hk] Hb]; [done|]. split; [|done].
           exists (k ++ [i]). by rewrite map_app, Hk, app_assoc.
        -- apply in_app_iff. right. by left.
      * rewrite list_lookup_insert_ne by done. intros Hj.
        apply (others_inv st _ i); [done|by apply Hth| | |]; cbn.
        -- eexists. split; [done|]. intros e [<-|[]]. done.
        -- intros h Hh. rewrite Hl. split; [done|intros [= ->]; done].
        -- rewrite Hl. intros [= ->]. done.
    + rewrite !map_app. cbn [map le_prior le_call]. rewrite prior_values_snoc, Hprior, Ho. done.
    + rewrite map_app. apply NoDup_app. split; [done|]. split; [|by apply NoDup_singleton].
      intros x Hx%list_elem_of_In ->%list_elem_of_singleton. done.
    + intros e [He|[<-|[]]]%in_app_iff.
      * by apply Hent'.
      * cbn. eexists. rewrite list_lookup_insert_eq by done. done.
    + intros _. unfold apply_all in *. rewrite map_app, fold_left_app.
      cbn [map le_call fold_left]. by rewrite <- Ho.
    + done.
  - done.
Qed.
End AtomicFacts.

Section AtomicRun.
Context {T : Type}.
Variable initial : T.

Lemma astep_pending i (st st' : @astate T) :
  astep i st = Some st' -> (apending st' < apending st)%nat.
Proof.
  unfold astep, apending.
  destruct (as_threads st !! i) as [th|] eqn:Hi; [|done].
  destruct (at_pc th) eqn:Epc; try done;
    try (intros [= <-]; cbn [as_threads];
         eapply sum_insert_lt; [done|]; cbn; rewrite Epc; cbn; lia).
  destruct (as_lock st); [done|].
  intros [= <-]; cbn [as_threads].
  eapply sum_insert_lt; [done|]; cbn; rewrite Epc; cbn; lia.
Qed.

Lemma atomic_progress calls st :
  atomic_inv initial calls st ->
  enabled (astep) (fun st => length (as_threads st)) st = [] ->
  all_returned st.
Proof.
  intros (_ & Hth & _ & _ & _ & _ & Hheld) Hen j thj Hj.
  assert (Hno : forall i, (i < length (as_threads st))%nat -> astep i st = None).
  { intros i Hi. destruct (astep i st) eqn:E; [|done].
    assert (i ∈ enabled (astep) (fun st => length (as_threads st)) st)
      by (apply enabled_spec; split; [done|by eexists]).
    rewrite Hen in H. by apply elem_of_nil in H. }
  destruct (as_lock st) as [h|] eqn:Hlk.
  - destruct (Hheld h eq_refl) as (th & Hh & Hc).
    pose proof (Hno h (lookup_lt_Some _ _ _ Hh)) as Hs.
    unfold astep in Hs. rewrite Hh in Hs. by destruct (at_pc th).
  - pose proof (Hno j (lookup_lt_Some _ _ _ Hj)) as Hs.
    destruct (Hth _ _ Hj) as [_ Hpc].
    unfold astep in Hs. rewrite Hj, Hlk in Hs.
    destruct (at_pc thj); try done; try (destruct Hpc as (_ & [=] & _)). by eexists.
Qed.

Lemma apending_zero (st : @astate T) : apending st = 0%nat -> all_returned st.
Proof.
  intros H i th Hi.
  pose proof (sum_lookup_le (fun th => remaining (at_pc th)) _ _ _ Hi) as Hle.
  fold (apending st) in Hle. rewrite H in Hle.
  destruct (at_pc th); cbn in Hle; try lia. by eexists.
Qed.

Lemma apending_init calls :
  apending (atomic_init initial calls) = (5 * length calls)%nat.
Proof.
  unfold apending, atomic_init; cbn [as_threads].
  induction calls as [|v l IH]; [done|].
  rewrite fmap_cons. cbn [sum_list_with at_pc remaining]. rewrite IH. cbn [length]. lia.
Qed.

Lemma run_atomic_inv calls sched :
  atomic_inv initial calls (run_atomic sched initial calls) /\
  all_returned (run_atomic sched initial calls).
Proof.
  unfold run_atomic, run_atomic_steps.
  apply (run_sched_reaches (astep) (fun st => length (as_threads st))
           (atomic_inv initial calls) (@all_returned T) (@apending T)).
  - intros i s s' Hs Hstep. split; [by eapply astep_inv|by eapply astep_pending].
  - intros s Hs. by eapply atomic_progress.
  - intros s _. apply apending_zero.
  - apply atomic_init_inv.
  - by rewrite apending_init.
Qed.

Lemma prefix_inv calls k sched :
  atomic_inv initial calls
    (run_atomic_steps k sched initial calls).
Proof.
  unfold run_atomic_steps. apply run_sched_inv; [|apply atomic_init_inv].
  intros i s s' Hs Hstep. by eapply astep_inv.
Qed.

Lemma atomic_linearization calls sched :
  let st := run_atomic sched initial calls in
  let pi := as_order st in
  at_call <$> as_threads st = calls /\
  (forall i th, as_threads st !! i = Some th ->
     exists old, at_pc th = AReturned old /\ In (LinEntry i (at_call th) old) pi) /\
  Permutation (map le_thread pi) (seq 0 (length calls)) /\
  map le_prior pi = prior_values initial (map le_call pi) /\
  as_cell st = apply_all (map le_call pi) initial /\
  (forall j th, as_threads st !! j = Some th ->
     exists rest, map le_thread pi = at_before th ++ rest /\ In j rest).
Proof.
  intros st pi. subst pi.
  destruct (run_atomic_inv calls sched) as
    ((Hvals & Hth & Hprior & Hnd & Hent & Hfree & Hheld) & Hall).
  fold st in Hvals, Hth, Hprior, Hnd, Hent, Hfree, Hheld, Hall.
  assert (Hret : forall i th, as_threads st !! i = Some th ->
            exists old, at_pc th = AReturned old /\
                        In (LinEntry i (at_call th) old) (as_order st)).
  { intros i th Hi. destruct (Hall _ _ Hi) as [old Hold]. exists old. split; [done|].
    destruct (Hth _ _ Hi) as [_ Hpc]. by rewrite Hold in Hpc. }
  assert (Hlen : length (as_threads st) = length calls)
    by (by rewrite <- Hvals, length_fmap).
  split; [done|]. split; [done|]. split; [|split; [done|split]].
  - apply NoDup_Permutation; [done|apply NoDup_seq|].
    intros i. rewrite elem_of_seq. split.
    + intros (e & <- & He)%list_elem_of_In%in_map_iff.
      destruct (Hent e He) as (th & Hi%lookup_lt_Some & _). lia.
    + intros [_ Hi]. cbn in Hi. rewrite <- Hlen in Hi.
      destruct (lookup_lt_is_Some_2 _ _ Hi) as [th Hth'].
      destruct (Hret _ _ Hth') as (old & _ & Hin).
      apply list_elem_of_In, in_map_iff. eexists. split; [|exact Hin]. done.
  - apply Hfree. destruct (as_lock st) as [h|] eqn:Hlk; [|done].
    destruct (Hheld h eq_refl) as (th & Hh & Hc).
    destruct (Hall _ _ Hh) as [old Hold]. by rewrite Hold in Hc.
  - intros j th Hj. destruct (Hret _ _ Hj) as (old & Hold & Hin).
    destruct (Hth _ _ Hj) as [Hbef _].
    destruct Hbef as [[rest Hrest] Hn]; [by rewrite Hold|].
    exists rest. split; [done|].
    assert (Hjin : In j (map le_thread (as_order st))).
    { apply in_map_iff. eexists. split; [|exact Hin]. done. }
    rewrite Hrest, in_app_iff in Hjin. tauto.
Qed.

Lemma atomic_mutual_exclusion calls sched k :
  let s := run_atomic_steps k sched initial calls in
  forall i j thi thj,
    as_threads s !! i = Some thi -> as_threads s !! j = Some thj ->
    in_critical (at_pc thi) = true -> in_critical (at_pc thj) = true ->
    i = j /\ (forall old, at_pc thi = AAtStore old -> old = as_cell s).
Proof.
  intros s i j thi thj Hi Hj Hci Hcj.
  destruct (prefix_inv calls k sched) as (_ & Hth & _). fold s in Hth.
  destruct (Hth _ _ Hi) as [_ Hpi], (Hth _ _ Hj) as [_ Hpj].
  assert (Hli : as_lock s = Some i).
  { destruct (at_pc thi); try done; tauto. }
  assert (Hlj : as_lock s = Some j).
  { destruct (at_pc thj); try done; tauto. }
  split; [congruence|]. intros old Hold. rewrite Hold in Hpi. tauto.
Qed.
End AtomicRun.

Lemma prior_values_add a n :
  prior_values a (repeat (Invocation Z.add 1) n)
  = map (fun k => a + k) (map Z.of_nat (seq 0 n)).
Proof.
  revert a. induction n as [|n IH]; intros a; cbn [repeat prior_values seq map]; [done|].
  rewrite IH. unfold apply_inv; cbn [inv_op inv_value].
  f_equal; [lia|]. rewrite <- seq_shift, !map_map. apply map_ext. intros; lia.
Qed.

Lemma apply_all_add a n : apply_all (repeat (Invocation Z.add 1) n) a = a + Z.of_nat n.
Proof.
  unfold apply_all.
  revert a. induction n as [|n IH]; intros a; cbn [repeat fold_left]; [lia|].
  rewrite IH. unfold apply_inv; cbn [inv_op inv_value]. lia.
Qed.

Lemma atomic_add_conservation sched (n : nat) :
  let st := run_atomic sched 0 (repeat (Invocation Z.add 1) n) in
  as_cell st = Z.of_nat n /\
  Permutation (returned_values st) (map Z.of_nat (seq 0 n)).
Proof.
  intros st.
  destruct (atomic_linearization 0 (repeat (Invocation Z.add 1) n) sched)
    as (Hvals & Hret & Hperm & Hprior & Hcell & _). fold st in Hvals, Hret, Hperm, Hprior, Hcell.
  rewrite repeat_length in Hperm.
  destruct (run_atomic_inv 0 (repeat (Invocation Z.add 1) n) sched)
    as ((_ & _ & _ & _ & Hent & _) & _).
  fold st in Hent.
  assert (Hones : map le_call (as_order st) = repeat (Invocation Z.add 1) n).
  { assert (Hl : length (as_order st) = n).
    { rewrite <- (length_map le_thread), (Permutation_length Hperm). apply length_seq. }
    rewrite <- Hl. clear Hl.
    apply map_const_repeat.
    intros e He. destruct (Hent e He) as (th & Hth & <- & _).
    assert (Hv : (at_call <$> as_threads st) !! le_thread e = Some (at_call th))
      by (by rewrite list_lookup_fmap, Hth).
    rewrite Hvals in Hv. apply list_elem_of_lookup_2, list_elem_of_In, repeat_spec in Hv.
    done. }
  split.
  - rewrite Hcell, Hones, apply_all_add. lia.
  - rewrite Hones, prior_values_add in Hprior.
    set (ret := fun i : nat => match as_threads st !! i with
                         | Some th => match at_pc th with AReturned old => old | _ => 0 end
                         | None => 0 end).
    assert (H1 : map le_prior (as_order st) = map ret (map le_thread (as_order st))).
    { rewrite map_map. apply map_ext_in. intros e He.
      destruct (Hent e He) as (th & Hth & _ & Hpc). unfold ret. by rewrite Hth, Hpc. }
    assert (H2 : returned_values st = map ret (seq 0 n)).
    { assert (Hlen : length (as_threads st) = n)
        by (by rewrite <- (length_fmap at_call), Hvals, repeat_length).
      rewrite <- Hlen. unfold returned_values, ret.
      assert (Hgen : forall l k,
                (forall i th, l !! i = Some th -> as_threads st !! (k + i)%nat = Some th) ->
                flat_map (fun th => match at_pc th with AReturned old => [old] | _ => [] end) l
                = map (fun i => match as_threads st !! i with
                         | Some th => match at_pc th with AReturned old => old | _ => 0 end
                         | None => 0 end) (seq k (length l))).
      { induction l as [|th l IH]; intros k Hl; cbn [flat_map length seq map]; [done|].
        pose proof (Hl 0%nat th eq_refl) as H0. rewrite Nat.add_0_r in H0.
        rewrite H0. destruct (Hret _ _ H0) as (old & -> & _). cbn. f_equal.
        apply IH. intros i th' Hi. replace (S k + i)%nat with (k + S i)%nat by lia.
        by apply Hl. }
      apply (Hgen (as_threads st) 0%nat). done. }
    rewrite H2. rewrite <- (Permutation_map ret Hperm), <- H1, Hprior.
    rewrite map_map. erewrite map_ext; [reflexivity|]. intros; cbn. lia.
Qed.

(** C7: [N] concurrent calls of [atomicOp] on one address, each with its own
    operator and operand, under every schedule: all of them return; they are
    linearized in the order [pi] in which they left the mutual exclusion
    region; each returns the value the cell had before it ([initial], then the
    result of its predecessor) and stores its operator's result, so the cell
    ends with all [N] operators applied and no update is lost; an invocation
    that had returned before another was called precedes it in [pi]; at every
    moment at most one thread is between its lock and its unlock, and the
    value it has loaded is still in the cell when it stores.  1000 concurrent
    additions of 1 to a counter at 0 leave 1000 and return each of 0..999
    once. *)
Theorem atomicOp_linearizable :
  (forall (T : Type) (initial : T) (calls : list (@invocation T)) (sched : list nat),
     let st := run_atomic sched initial calls in
     let pi := as_order st in
     at_call <$> as_threads st = calls /\
     (forall i th, as_threads st !! i = Some th ->
        exists old, at_pc th = AReturned old /\ In (LinEntry i (at_call th) old) pi) /\
     Permutation (map le_thread pi) (seq 0 (length calls)) /\
     map le_prior pi = prior_values initial (map le_call pi) /\
     as_cell st = apply_all (map le_call pi) initial /\
     (forall j th, as_threads st !! j = Some th ->
        exists rest, map le_thread pi = at_before th ++ rest /\ In j rest) /\
     (forall k i j thi thj,
        let s := run_atomic_steps k sched initial calls in
        as_threads s !! i = Some thi -> as_threads s !! j = Some thj ->
        in_critical (at_pc thi) = true -> in_critical (at_pc thj) = true ->
        i = j /\ (forall old, at_pc thi = AAtStore old -> old = as_cell s))) /\
  (forall sched : list nat,
     let st := run_atomic sched 0 (repeat (Invocation Z.add 1) 1000) in
     as_cell st = 1000 /\ Permutation (returned_values st) (zrange 1000)).
Proof.
  split.
  - intros T initial calls sched st pi.
    destruct (atomic_linearization initial calls sched)
      as (H1 & H2 & H3 & H4 & H5 & H6).
    repeat (split; [assumption|]).
    intros k i j thi thj s. apply (atomic_mutual_exclusion initial calls sched k).
  - intros sched st.
    destruct (atomic_add_conservation sched 1000) as [H1 H2]. split; [exact H1|exact H2].
Qed.

Lemma atomicOp_linearizable_witness :
  as_cell (run_atomic [2; 2; 0]%nat 0 (repeat (Invocation Z.add 1) 1000)) = 1000.
Proof.
  destruct atomicOp_linearizable as [_ H].
  exact (proj1 (H [2; 2; 0]%nat)).
Defined.

(** ** The two default pitch computations *)

Lemma GetPitchBytesDefault_last M v i :
  S i = Dim v ->
  MemViewTraits.GetPitchBytesDefault M v i = ViewTraitsMem.GetPitchBytes M i v.
Proof.
  intros H. rewrite MemViewTraits.GetPitchBytesDefault_equation_1.
  destruct (lt_eq_lt_dec (S i) (Dim v)) as [[Hlt|Heq]|Hgt]; try lia.
  reflexivity.
Qed.

Lemma GetPitchBytesDefault_below M v i :
  (S i < Dim v)%nat ->
  MemViewTraits.GetPitchBytesDefault M v i
  = match getExtent i v, MemViewTraits.GetPitchBytesDefault M v (S i) with
    | Some e, Some p => Some ((e * p) mod M)
    | _, _ => None
    end.
Proof.
  intros H. rewrite MemViewTraits.GetPitchBytesDefault_equation_1.
  destruct (lt_eq_lt_dec (S i) (Dim v)) as [[Hlt|Heq]|Hgt]; try lia.
  reflexivity.
Qed.





(* ===================================================================== *)
(** * Part III: further properties of the code *)
(* ===================================================================== *)

(** ** [IndexOpenMp::getIdxBlockKernel]: more threads than the extent holds *)

(** X1: two different threads of a team never get the same block-thread
    coordinate, whatever the third extent and even when the team has more
    threads than the extent holds: the coordinate determines the thread. *)
Theorem getIdxBlockKernel_inj (e : vec3) (t1 t2 : Z) :
  1 <= at0 e -> 1 <= at1 e -> at0 e * at1 e < 2 ^ 32 ->
  0 <= t1 <= INT_MAX -> 0 <= t2 <= INT_MAX ->
  t1 <> t2 ->
  getIdxBlockKernel e t1 <> getIdxBlockKernel e t2.
Proof.
  destruct e as [e0 e1 e2]; cbn [at0 at1 at2]. intros H0 H1 Hfit Ht1 Ht2 Hne.
  rewrite !getIdxBlockKernel_no_wrap, !code_expressions_rule by lia.
  intros [= Hx Hy Hz]. apply Hne.
  rewrite <- (linearize_rule e0 e1 e2 t1), <- (linearize_rule e0 e1 e2 t2) by lia.
  unfold delinearization_rule; cbn [at0 at1 at2]. by rewrite Hx, Hy, Hz.
Qed.

Lemma getIdxBlockKernel_inj_witness :
  getIdxBlockKernel (Vec3 4 3 2) 17 <> getIdxBlockKernel (Vec3 4 3 2) 29.
Proof.
  apply (getIdxBlockKernel_inj (Vec3 4 3 2) 17 29);
    cbn [at0 at1 at2]; unfold INT_MAX; lia.
Defined.



(** ** Loops whose last iteration decides *)

Lemma for_uint32_proj {A B} (pr : A -> B) n (body : Z -> A -> A) (body' : Z -> B -> B) s :
  (forall b s, pr (body b s) = body' b (pr s)) ->
  pr (for_uint32 n body s) = for_uint32 n body' (pr s).
Proof.
  intros H. unfold for_uint32. revert s.
  induction (zrange n) as [|b l IH]; intros s; cbn; [done|]. by rewrite IH, H.
Qed.

Lemma for_uint32_ext {A} n (body body' : Z -> A -> A) s :
  (forall b s, body b s = body' b s) -> for_uint32 n body s = for_uint32 n body' s.
Proof. intros H. apply (for_uint32_proj (fun x => x)). done. Qed.

Lemma zrange_last n : 1 <= n -> zrange n = zrange (n - 1) ++ [n - 1].
Proof.
  intros H. unfold zrange. replace (Z.to_nat n) with (S (Z.to_nat (n - 1))) by lia.
  rewrite seq_S, map_app. cbn. do 2 f_equal. lia.
Qed.

Lemma for_uint32_absorb {A} n (upd : Z -> A -> A) s :
  (forall a b s, upd b (upd a s) = upd b s) ->
  for_uint32 n upd s = if 1 <=? n then upd (n - 1) s else s.
Proof.
  intros Habs. destruct (Z.leb_spec 1 n) as [H|H].
  - unfold for_uint32. rewrite zrange_last, fold_left_app by done. cbn.
    generalize (zrange (n - 1)). intros l. revert s.
    induction l as [|a l IH]; intros s; cbn; [done|]. by rewrite IH, Habs.
  - unfold for_uint32. by rewrite zrange_nonpos by lia.
Qed.

(** ** More on launches *)

Section LaunchState.
Context {Args : Type}.
Variable rt : OmpRuntime.
Variable kernel : @Kernel Args.

Lemma dispatch_idx_dyn oracle args g st :
  idx_dyn (dispatch rt kernel oracle args g st)
  = let '(v, d) := idx_dyn st in
    if 1 <=? at2 g then
      if 1 <=? at1 g then
        if 1 <=? at0 g then (Vec3 (at0 g - 1) (at1 g - 1) (at2 g - 1), false)
        else (Vec3 (at0 v) (at1 g - 1) (at2 g - 1), d)
      else (Vec3 (at0 v) (at1 v) (at2 g - 1), d)
    else (v, d).
Proof.
  set (inner := fun p : vec3 * bool =>
         if 1 <=? at0 g then (set_at0 (fst p) (at0 g - 1), false) else p).
  set (middle := fun p : vec3 * bool =>
         if 1 <=? at1 g then inner (set_at1 (fst p) (at1 g - 1), snd p) else p).
  assert (Hin : forall bz by_ st1,
    idx_dyn (for_uint32 (at0 g)
               (fun bx st2 => run_block rt kernel oracle args bz by_ bx st2) st1)
    = inner (idx_dyn st1)).
  { intros bz by_ st1.
    rewrite (for_uint32_proj idx_dyn _ _ (fun bx p => (set_at0 (fst p) bx, false)))
      by done.
    rewrite for_uint32_absorb by done. unfold inner. by destruct (1 <=? at0 g). }
  assert (Hmid : forall bz st1,
    idx_dyn (for_uint32 (at1 g) (fun by_ st2 =>
               for_uint32 (at0 g)
                 (fun bx st3 => run_block rt kernel oracle args bz by_ bx st3)
                 (set_idx (fun v => set_at1 v by_) st2)) st1)
    = middle (idx_dyn st1)).
  { intros bz st1.
    rewrite (for_uint32_proj idx_dyn _ _ (fun by_ p => inner (set_at1 (fst p) by_, snd p)))
      by (intros; by rewrite Hin).
    rewrite for_uint32_absorb.
    - unfold middle. by destruct (1 <=? at1 g).
    - intros a b [[v0 v1 v2] d]. unfold inner. by destruct (1 <=? at0 g). }
  unfold dispatch.
  rewrite (for_uint32_proj idx_dyn _ _ (fun bz p => middle (set_at2 (fst p) bz, snd p)))
    by (intros; by rewrite Hmid).
  rewrite for_uint32_absorb.
  - destruct (idx_dyn st) as [[v0 v1 v2] d]. unfold middle, inner.
    by destruct (1 <=? at2 g), (1 <=? at1 g), (1 <=? at0 g).
  - intros a b [[v0 v1 v2] d]. unfold middle, inner.
    by destruct (1 <=? at1 g), (1 <=? at0 g).
Qed.
End LaunchState.

Section LaunchExtras.
Context {Args : Type}.
Variable rt : OmpRuntime.
Variable kernel : @Kernel Args.

Lemma launch_returned_state oracle ws args (st0 : @exec_state Args) :
  prod3 (blockThreadExtent ws) <= to_uint32 (omp_max_threads rt) ->
  exists st3,
    idx_dyn st3 = idx_dyn st0 /\
    st_nthreads_var st3 = 1024 /\
    m_WorkSize (st_acc st3) = ws /\
    let st4 := dispatch rt kernel oracle args (gridBlockExtent ws) st3 in
    KernelExecutor_call rt kernel oracle ws args st0
    = Returned (MkState (MkAcc (m_WorkSize (st_acc st4)) (m_v3uiGridBlockIdx (st_acc st4))
                               [] [])
                        (st_nthreads_var st4) (st_dyn_var st4) (st_trace st4)).
Proof.
  intros H. unfold KernelExecutor_call, getSizeBlockKernelsLinearMax,
    getSize_Block_Kernels_Linear. cbn [st_acc m_WorkSize].
  apply Z.ltb_ge in H. rewrite H.
  eexists. split; [|split; [|split; [|reflexivity]]]; done.
Qed.

Lemma run_block_oracle o1 o2 args bz by_ bx (st : @exec_state Args) :
  omp_conforming rt ->
  run_block rt kernel o1 args bz by_ bx st = run_block rt kernel o2 args bz by_ bx st.
Proof.
  intros Hrt. unfold run_block.
  rewrite !omp_parallel_final by (done || apply isolated_region_code). done.
Qed.

Lemma dispatch_oracle o1 o2 args g (st : @exec_state Args) :
  omp_conforming rt ->
  dispatch rt kernel o1 args g st = dispatch rt kernel o2 args g st.
Proof.
  intros Hrt. unfold dispatch.
  apply for_uint32_ext; intros bz s1.
  apply for_uint32_ext; intros by_ s2.
  apply for_uint32_ext; intros bx s3. by apply run_block_oracle.
Qed.

Lemma launch_oracle (o1 o2 : vec3 -> list nat) (ws : WorkSize) (args : Args)
    (st0 : exec_state) :
  omp_conforming rt ->
  KernelExecutor_call rt kernel o1 ws args st0
  = KernelExecutor_call rt kernel o2 ws args st0.
Proof.
  intros Hrt. unfold KernelExecutor_call.
  destruct (getSizeBlockKernelsLinearMax rt _) as [m st2].
  destruct (m <? _); [done|]. by rewrite (dispatch_oracle o1 o2).
Qed.

(** X3: for a kernel whose threads make, in each block, one and the same
    sequence of [syncBlockKernels] and [allocBlockSharedMem] calls, what a
    launch does with the shared memory does not depend on how the threads of
    the blocks are interleaved: whether it is accepted, the segments every
    block starts and ends with, the barrier passages, emplacements and
    returned addresses of every thread, and the accelerator state and OpenMP
    settings it leaves.  (What the invocations receive as arguments is not
    part of the statement.) *)
Theorem launch_schedule_independent (o1 o2 : vec3 -> list nat) (ws : WorkSize)
    (args : Args) (st0 : exec_state) :
  omp_conforming rt ->
  match KernelExecutor_call rt kernel o1 ws args st0,
        KernelExecutor_call rt kernel o2 ws args st0 with
  | Returned s1, Returned s2 | Thrown _ s1, Thrown _ s2 =>
      st_acc s1 = st_acc s2 /\
      st_nthreads_var s1 = st_nthreads_var s2 /\
      st_dyn_var s1 = st_dyn_var s2 /\
      map block_shared_mem (st_trace s1) = map block_shared_mem (st_trace s2)
  | _, _ => False
  end.
Proof.
  intros Hrt. rewrite (launch_oracle o1 o2) by done.
  destruct (KernelExecutor_call rt kernel o2 ws args st0); done.
Qed.



(** X4: after an accepted launch the accelerator keeps the index of the last
    block it ran: [getIdxGridBlock] gives (g0-1, g1-1, g2-1) for a grid
    without a zero axis; a loop that does not run leaves its component, and
    those of the loops inside it, as they were. *)
Theorem grid_index_after_launch (oracle : vec3 -> list nat) (g b : vec3) (args : Args)
    (st0 : exec_state) :
  prod3 b <= to_uint32 (omp_max_threads rt) ->
  exists st',
    KernelExecutor_call rt kernel oracle (MkWorkSize g b) args st0 = Returned st' /\
    let v := getIdxGridBlock (st_acc st0) in
    getIdxGridBlock (st_acc st')
    = if 1 <=? at2 g then
        if 1 <=? at1 g then
          if 1 <=? at0 g then Vec3 (at0 g - 1) (at1 g - 1) (at2 g - 1)
          else Vec3 (at0 v) (at1 g - 1) (at2 g - 1)
        else Vec3 (at0 v) (at1 v) (at2 g - 1)
      else v.
Proof.
  intros Hval.
  destruct (launch_returned_state oracle (MkWorkSize g b) args st0 Hval)
    as (st3 & Hid & _ & _ & Hcall).
  eexists. split; [exact Hcall|]. cbn [st_acc getIdxGridBlock m_v3uiGridBlockIdx gridBlockExtent].
  pose proof (dispatch_idx_dyn rt kernel oracle args g st3) as H.
  rewrite Hid in H. unfold idx_dyn in H. unfold getIdxGridBlock.
  destruct (1 <=? at2 g), (1 <=? at1 g), (1 <=? at0 g); by injection H.
Qed.


(** X6: a launch that follows an accepted launch on the same executor starts
    with no shared-memory segment: its blocks are those of a launch on an
    executor without segments, whatever the first launch allocated. *)
Theorem second_launch_starts_empty (oracle : vec3 -> list nat) (ws1 ws2 : WorkSize)
    (args1 args2 : Args) (st0 : exec_state) :
  omp_conforming rt ->
  prod3 (blockThreadExtent ws1) <= to_uint32 (omp_max_threads rt) ->
  prod3 (blockThreadExtent ws2) <= to_uint32 (omp_max_threads rt) ->
  exists st1 st2,
    KernelExecutor_call rt kernel oracle ws1 args1 st0 = Returned st1 /\
    KernelExecutor_call rt kernel oracle ws2 args2 st1 = Returned st2 /\
    st_trace st2
    = st_trace st1
      ++ blocks_trace rt kernel ws2 args2 [] (all_coords (gridBlockExtent ws2)) /\
    m_vvuiSharedMem (st_acc st2) = [] /\ m_vuiExternalSharedMem (st_acc st2) = [].
Proof.
  intros Hrt H1 H2.
  destruct (launch_returned rt kernel oracle ws1 args1 st0 Hrt H1)
    as (st1 & Hc1 & _ & Hm1 & _ & _).
  destruct (launch_returned rt kernel oracle ws2 args2 st1 Hrt H2)
    as (st2 & Hc2 & _ & Hm2 & He2 & Ht2).
  exists st1, st2. rewrite Hm1 in Ht2. done.
Qed.

(** X7: the per-axis maxima [getSizeBlockKernelsMax] reports can each be used
    alone but not together: a block extent equal to the reported vector is
    rejected by the launch as soon as the maximum is at least 2 (it is at
    most the 1024 that [getSizeBlockKernelsLinearMax] asks OpenMP for). *)
Theorem reported_maxima_not_jointly_usable (oracle : vec3 -> list nat) (g : vec3)
    (args : Args) (st : exec_state) :
  omp_conforming rt ->
  2 <= omp_max_threads rt <= 1024 ->
  let bmax := fst (getSizeBlockKernelsMax rt st) in
  let st1 := snd (getSizeBlockKernelsMax rt st) in
  (exists e st',
     KernelExecutor_call rt kernel oracle (MkWorkSize g bmax) args st1 = Thrown e st') /\
  (forall b, b = Vec3 (at0 bmax) 1 1 \/ b = Vec3 1 (at1 bmax) 1 \/ b = Vec3 1 1 (at2 bmax) ->
     exists st', KernelExecutor_call rt kernel oracle (MkWorkSize g b) args st1 = Returned st').
Proof.
  intros Hrt Hm bmax st1.
  assert (Hb : bmax = Vec3 (omp_max_threads rt) (omp_max_threads rt) (omp_max_threads rt)).
  { unfold bmax, getSizeBlockKernelsMax, getSizeBlockKernelsLinearMax. cbn.
    by rewrite conforming_max. }
  split.
  - do 2 eexists. apply launch_thrown. rewrite conforming_max by done.
    rewrite Hb. unfold prod3; cbn. nia.
  - intros b Hcase.
    destruct (launch_returned rt kernel oracle (MkWorkSize g b) args st1 Hrt) as (st' & H & _).
    + rewrite conforming_max by done. rewrite Hb in Hcase. cbn in Hcase.
      destruct Hcase as [->|[->| ->]]; unfold prod3; cbn; lia.
    + by exists st'.
Qed.

Lemma back_events_app (l1 l2 : list (@event Args)) :
  back_events (l1 ++ l2) = back_events l1 ++ back_events l2.
Proof. apply flat_map_app. Qed.

Lemma alloc_calls_segs calls : length (segs_of (kernel_code calls)) = alloc_calls calls.
Proof.
  induction calls as [|c calls IH]; [done|].
  unfold kernel_code in *. cbn [flat_map]. rewrite segs_of_app, length_app, IH.
  by destruct c.
Qed.

Lemma back_events_kernel (rg : @region Args) i calls mem :
  back_events (log_of rg i mem (kernel_code calls))
  = map (fun c => Some (length mem + c)%nat) (seq 0 (alloc_calls calls)).
Proof.
  revert mem. induction calls as [|c calls IH]; intros mem; [done|].
  unfold kernel_code in *. cbn [flat_map]. rewrite log_of_app, back_events_app, IH.
  destruct c as [|sizeofT n].
  - cbn. by rewrite app_nil_r.
  - cbn [call_code allocBlockSharedMem syncBlockKernels app log_of segs_of flat_map
         instr_events alloc_calls sum_list_with].
    rewrite !app_nil_r, back_data_snoc. cbn [Nat.add seq map].
    rewrite length_app. cbn [length].
    rewrite <- seq_shift, map_map.
    assert (Hev : back_events (EvBarrier ::
              (if Nat.eqb i 0 then [EvEmplaceBack n] else []) ++
              [EvBarrier] ++ [EvBack (Some (length mem))] : list (@event Args))
            = [Some (length mem)]) by (by destruct (Nat.eqb i 0)).
    cbn [app] in Hev |- *. rewrite Hev. cbn [app]. f_equal; [f_equal; lia|].
    apply map_ext. intros a. f_equal. lia.
Qed.

Lemma back_events_region (rg : @region Args) i calls mem :
  back_events (log_of rg i mem (region_code calls))
  = map (fun c => Some (length mem + c)%nat) (seq 0 (alloc_calls calls)).
Proof.
  unfold region_code. cbn [log_of segs_of flat_map app]. rewrite app_nil_r.
  rewrite log_of_app, !back_events_app, back_events_kernel. cbn. by rewrite app_nil_r.
Qed.

(** X8: in every block of a launch, the c-th call of [allocBlockSharedMem]
    returns, to every thread of the block, the c-th segment appended in this
    block: the addresses a block gets are pairwise different and none is a
    segment that was there when the block started. *)
Theorem alloc_returns_fresh_segments (oracle : vec3 -> list nat) (ws : WorkSize)
    (args : Args) (st0 : exec_state) :
  omp_conforming rt ->
  prod3 (blockThreadExtent ws) <= to_uint32 (omp_max_threads rt) ->
  exists st' new,
    KernelExecutor_call rt kernel oracle ws args st0 = Returned st' /\
    st_trace st' = st_trace st0 ++ new /\
    Forall (fun br => forall log, In log (br_logs br) ->
              back_events log
              = map (fun c => Some (length (br_before br) + c)%nat)
                    (seq 0 (alloc_calls (k_calls kernel args (br_block br))))) new.
Proof.
  intros Hrt Hval.
  destruct (launch_returned rt kernel oracle ws args st0 Hrt Hval)
    as (st' & Hcall & _ & _ & _ & Htr).
  exists st'. eexists. split; [done|]. split; [done|].
  apply blocks_trace_Forall. intros gc m' log. unfold block_record_of.
  cbn [br_logs br_before br_block]. intros (i & <- & _)%in_map_iff.
  apply back_events_region.
Qed.

Lemma blocks_trace_lookup ws args cs mem j br :
  blocks_trace rt kernel ws args mem cs !! j = Some br ->
  exists gc, cs !! j = Some gc /\
    br = block_record_of rt kernel ws args gc (blocks_mem kernel ws args mem (take j cs)).
Proof.
  revert mem j. induction cs as [|gc cs IH]; intros mem j; [done|].
  destruct j as [|j]; cbn.
  - intros [= <-]. by exists gc.
  - intros H. by apply IH in H.
Qed.

Lemma blocks_mem_length ws args k cs mem :
  (forall gc, alloc_calls (k_calls kernel args gc) = k) ->
  length (blocks_mem kernel ws args mem cs) = (length mem + length cs * k)%nat.
Proof.
  intros Hk. revert mem. induction cs as [|gc cs IH]; intros mem; cbn; [lia|].
  rewrite IH, length_app. unfold region_code.
  cbn [segs_of flat_map app]. rewrite segs_of_app, length_app, alloc_calls_segs, Hk.
  cbn. lia.
Qed.

(** X9: within a launch the segment list only grows: when every block makes
    [k] calls of [allocBlockSharedMem], the block dispatched at position [j]
    starts with the [j * k] segments of the blocks before it and ends with
    [(j + 1) * k], on top of those the launch started with. *)
Theorem segments_accumulate_over_blocks (oracle : vec3 -> list nat) (ws : WorkSize)
    (args : Args) (st0 : exec_state) (k : nat) :
  omp_conforming rt ->
  prod3 (blockThreadExtent ws) <= to_uint32 (omp_max_threads rt) ->
  (forall gc, alloc_calls (k_calls kernel args gc) = k) ->
  exists st' new,
    KernelExecutor_call rt kernel oracle ws args st0 = Returned st' /\
    st_trace st' = st_trace st0 ++ new /\
    forall j br, new !! j = Some br ->
      length (br_before br) = (length (m_vvuiSharedMem (st_acc st0)) + j * k)%nat /\
      length (br_after br) = (length (m_vvuiSharedMem (st_acc st0)) + (j + 1) * k)%nat.
Proof.
  intros Hrt Hval Hk.
  destruct (launch_returned rt kernel oracle ws args st0 Hrt Hval)
    as (st' & Hcall & _ & _ & _ & Htr).
  exists st'. eexists. split; [done|]. split; [done|].
  intros j br Hbr. pose proof (lookup_lt_Some _ _ _ Hbr) as Hlt.
  apply blocks_trace_lookup in Hbr as (gc & Hgc & ->).
  pose proof (lookup_lt_Some _ _ _ Hgc) as Hj.
  unfold block_record_of. cbn [br_before br_after].
  rewrite length_app, (blocks_mem_length ws args k) by done.
  rewrite length_take, Nat.min_l by lia.
  split; [done|]. unfold block_region. cbn [rg_code]. unfold region_code.
  cbn [segs_of flat_map app]. rewrite segs_of_app, length_app, alloc_calls_segs, Hk.
  cbn. lia.
Qed.

End LaunchExtras.

Lemma launch_schedule_independent_witness :
  match KernelExecutor_call omp_runtime_256 kernel_one_alloc (fun _ => [1; 0; 1]%nat)
          (MkWorkSize (Vec3 2 1 1) (Vec3 2 1 1)) tt st_fresh,
        KernelExecutor_call omp_runtime_256 kernel_one_alloc (fun _ => [])
          (MkWorkSize (Vec3 2 1 1) (Vec3 2 1 1)) tt st_fresh with
  | Returned s1, Returned s2 | Thrown _ s1, Thrown _ s2 =>
      st_acc s1 = st_acc s2 /\
      st_nthreads_var s1 = st_nthreads_var s2 /\
      st_dyn_var s1 = st_dyn_var s2 /\
      map block_shared_mem (st_trace s1) = map block_shared_mem (st_trace s2)
  | _, _ => False
  end.
Proof.
  apply (launch_schedule_independent omp_runtime_256 kernel_one_alloc).
  apply omp_runtime_256_conforming.
Defined.

Lemma grid_index_after_launch_witness :
  exists st',
    KernelExecutor_call omp_runtime_256 kernel_plain (fun _ => [])
      (MkWorkSize (Vec3 3 2 4) (Vec3 2 1 1)) tt st_fresh = Returned st' /\
    getIdxGridBlock (st_acc st') = Vec3 2 1 3.
Proof.
  destruct (grid_index_after_launch omp_runtime_256 kernel_plain (fun _ => [])
              (Vec3 3 2 4) (Vec3 2 1 1) tt st_fresh) as (st' & H1 & H2).
  - vm_compute. discriminate.
  - exists st'. split; [exact H1|exact H2].
Defined.

Lemma second_launch_starts_empty_witness :
  exists st1 st2,
    KernelExecutor_call omp_runtime_256 kernel_one_alloc (fun _ => [])
      (MkWorkSize (Vec3 2 1 1) (Vec3 2 1 1)) tt st_fresh = Returned st1 /\
    KernelExecutor_call omp_runtime_256 kernel_one_alloc (fun _ => [])
      (MkWorkSize (Vec3 1 1 1) (Vec3 3 1 1)) tt st1 = Returned st2 /\
    m_vvuiSharedMem (st_acc st2) = [].
Proof.
  destruct (second_launch_starts_empty omp_runtime_256 kernel_one_alloc (fun _ => [])
              (MkWorkSize (Vec3 2 1 1) (Vec3 2 1 1)) (MkWorkSize (Vec3 1 1 1) (Vec3 3 1 1))
              tt tt st_fresh) as (st1 & st2 & H1 & H2 & _ & H3 & _).
  - apply omp_runtime_256_conforming.
  - vm_compute. discriminate.
  - vm_compute. discriminate.
  - exists st1, st2. repeat split; assumption.
Defined.

Lemma reported_maxima_not_jointly_usable_witness :
  exists e st',
    KernelExecutor_call omp_runtime_256 kernel_plain (fun _ => [])
      (MkWorkSize (Vec3 1 1 1) (fst (getSizeBlockKernelsMax omp_runtime_256 st_fresh))) tt
      (snd (getSizeBlockKernelsMax omp_runtime_256 st_fresh)) = Thrown e st'.
Proof.
  destruct (reported_maxima_not_jointly_usable omp_runtime_256 kernel_plain (fun _ => [])
              (Vec3 1 1 1) tt st_fresh) as [H _].
  - apply omp_runtime_256_conforming.
  - cbn. lia.
  - exact H.
Defined.

Lemma alloc_returns_fresh_segments_witness :
  exists st' new,
    KernelExecutor_call omp_runtime_256 kernel_one_alloc (fun _ => [])
      (MkWorkSize (Vec3 2 1 1) (Vec3 2 1 1)) tt st_fresh = Returned st' /\
    st_trace st' = st_trace st_fresh ++ new /\
    Forall (fun br => forall log, In log (br_logs br) ->
              back_events log = [Some (length (br_before br) + 0)%nat]) new.
Proof.
  destruct (alloc_returns_fresh_segments omp_runtime_256 kernel_one_alloc (fun _ => [])
              (MkWorkSize (Vec3 2 1 1) (Vec3 2 1 1)) tt st_fresh) as (st' & new & H1 & H2 & H3).
  - apply omp_runtime_256_conforming.
  - vm_compute. discriminate.
  - exists st', new. repeat split; assumption.
Defined.

Lemma segments_accumulate_over_blocks_witness :
  exists st' new,
    KernelExecutor_call omp_runtime_256 kernel_one_alloc (fun _ => [])
      (MkWorkSize (Vec3 2 1 1) (Vec3 2 1 1)) tt st_fresh = Returned st' /\
    st_trace st' = st_trace st_fresh ++ new /\
    forall j br, new !! j = Some br ->
      length (br_before br) = (0 + j * 1)%nat /\ length (br_after br) = (0 + (j + 1) * 1)%nat.
Proof.
  destruct (segments_accumulate_over_blocks omp_runtime_256 kernel_one_alloc (fun _ => [])
              (MkWorkSize (Vec3 2 1 1) (Vec3 2 1 1)) tt st_fresh 1)
    as (st' & new & H1 & H2 & H3).
  - apply omp_runtime_256_conforming.
  - vm_compute. discriminate.
  - reflexivity.
  - exists st', new. repeat split; try assumption; apply (H3 j br); assumption.
Defined.


(** ** Barriers and the threads of a block *)

Section BarrierExtras.
Context {Args : Type}.

Lemma run_team_inv (rg : @region Args) n mem0 k sched :
  isolated (rg_code rg) -> (1 <= n)%nat ->
  team_inv rg mem0 (run_team rg k sched (team_init n mem0)).
Proof.
  intros Hiso Hn. unfold run_team. apply run_sched_inv.
  - intros i s s' Hs Hstep. by apply (step_inv rg mem0 i s s').
  - by apply init_inv.
Qed.

(** X11: at every moment of every interleaving of a block, a thread that is
    past a barrier of the kernel (a [syncBlockKernels], one of the barriers of
    [allocBlockSharedMem], or the barrier that ends the block) finds every
    other thread of the block at that barrier or past it: no thread leaves a
    barrier before the whole team has arrived. *)
Theorem barrier_holds_back_the_team (calls : list kcall) (gc b : vec3) (args : Args)
    (n : nat) (mem0 : list segment) (k : nat) (sched : list nat) :
  (1 <= n)%nat ->
  let rg := Region (region_code calls) gc b args in
  let tm := run_team rg k sched (team_init n mem0) in
  forall i j thi thj p,
    tm_threads tm !! i = Some thi -> tm_threads tm !! j = Some thj ->
    rg_code rg !! p = Some IBarrier ->
    (p < th_pc thi)%nat ->
    (p < th_pc thj)%nat \/ (th_pc thj = p /\ th_waiting thj = true).
Proof.
  intros Hn rg tm i j thi thj p Hi Hj Hp Hlt. left.
  destruct (run_team_inv rg n mem0 k sched (isolated_region_code calls) Hn)
    as (s & Hths & _).
  destruct (Hths i thi Hi) as (Hpi & _). destruct (Hths j thj Hj) as (Hpj & _).
  assert (p < s)%nat.
  { destruct Hpi as [Ei|(Ei & x & Hx & Hnb)]; [lia|].
    destruct (decide (p = s)) as [->|]; [|lia].
    rewrite Hx in Hp. by injection Hp. }
  destruct Hpj as [Ej|(Ej & _)]; lia.
Qed.

Lemma team_done_final (rg : @region Args) n mem0 :
  team_done rg (team_final rg n mem0) = true.
Proof.
  unfold team_done, team_final. cbn [tm_threads]. apply forallb_lookup.
  intros i x (y & -> & _)%list_lookup_fmap_Some. cbn. apply Nat.leb_refl.
Qed.

(** X12: a block never deadlocks: under every interleaving all threads of the
    team reach the end of the kernel and of the closing barrier, none is left
    waiting, and the team has then appended the segments of all its
    [allocBlockSharedMem] calls. *)
Theorem block_runs_to_completion (calls : list kcall) (gc b : vec3) (args : Args)
    (n : nat) (mem0 : list segment) (sched : list nat) :
  (1 <= n)%nat ->
  let rg := Region (region_code calls) gc b args in
  let tm := run_team rg (n * (2 * length (rg_code rg) + 1)) sched (team_init n mem0) in
  team_done rg tm = true /\
  length (tm_threads tm) = n /\
  Forall (fun th => th_waiting th = false) (tm_threads tm) /\
  length (tm_mem tm) = (length mem0 + alloc_calls calls)%nat.
Proof.
  intros Hn rg tm. unfold tm.
  rewrite (run_team_final rg n mem0 sched (isolated_region_code calls) Hn).
  split; [apply team_done_final|]. unfold team_final; cbn [tm_threads tm_mem].
  split; [by rewrite length_fmap, length_seq|]. split.
  - apply List.Forall_forall. intros th (i & <- & _)%in_map_iff. done.
  - rewrite length_app. subst rg. cbn [rg_code]. unfold region_code.
    change (IKernelEnter :: kernel_code calls ++ syncBlockKernels)
      with ([IKernelEnter] ++ kernel_code calls ++ syncBlockKernels).
    rewrite !segs_of_app, !length_app, alloc_calls_segs. cbn. lia.
Qed.
End BarrierExtras.

Lemma barrier_holds_back_the_team_witness :
  exists thi thj,
    tm_threads (run_team (Region (region_code [KAlloc 4 2]) (Vec3 0 0 0) (Vec3 2 1 1) tt)
                  5 [1; 1; 0; 0]%nat (team_init 2 [])) !! 0%nat = Some thi /\
    tm_threads (run_team (Region (region_code [KAlloc 4 2]) (Vec3 0 0 0) (Vec3 2 1 1) tt)
                  5 [1; 1; 0; 0]%nat (team_init 2 [])) !! 1%nat = Some thj /\
    (1 < th_pc thi)%nat /\
    ((1 < th_pc thj)%nat \/ (th_pc thj = 1%nat /\ th_waiting thj = true)).
Proof.
  eexists. eexists.
  split; [vm_compute; reflexivity|]. split; [vm_compute; reflexivity|].
  split; [cbn; lia|].
  eapply (barrier_holds_back_the_team [KAlloc 4 2] (Vec3 0 0 0) (Vec3 2 1 1) tt 2 [] 5
            [1; 1; 0; 0]%nat ltac:(lia) 0%nat 1%nat _ _ 1%nat).
  - vm_compute. reflexivity.
  - vm_compute. reflexivity.
  - reflexivity.
  - cbn. lia.
Defined.

Lemma block_runs_to_completion_witness :
  let rg := Region (region_code [KAlloc 4 2; KSync]) (Vec3 0 0 0) (Vec3 3 1 1) tt in
  length (tm_mem (run_team rg (3 * (2 * length (rg_code rg) + 1)) [2; 0; 1]%nat
                    (team_init 3 []))) = 1%nat.
Proof.
  destruct (block_runs_to_completion [KAlloc 4 2; KSync] (Vec3 0 0 0) (Vec3 3 1 1) tt 3 []
              [2; 0; 1]%nat) as (_ & _ & _ & H).
  - lia.
  - exact H.
Defined.

(** ** More on [atomicOp] *)

Section AtomicExtras.
Context {T : Type}.

Lemma apply_all_Permutation (l1 l2 : list (@invocation T)) :
  Permutation l1 l2 ->
  (forall c1 c2 a, In c1 l1 -> In c2 l1 ->
     apply_inv c1 (apply_inv c2 a) = apply_inv c2 (apply_inv c1 a)) ->
  forall a, apply_all l1 a = apply_all l2 a.
Proof.
  induction 1 as [|x l l' Hp IH|x y l|l l' l'' Hp1 IH1 Hp2 IH2]; intros Hc a.
  - done.
  - unfold apply_all in *. cbn. apply IH. intros. apply Hc; by right.
  - unfold apply_all. cbn. f_equal. apply Hc; [right; by left|by left].
  - rewrite IH1 by done. apply IH2. intros c1 c2 b H1 H2.
    apply Hc; eapply Permutation_in; try apply Permutation_sym; eassumption.
Qed.

Lemma lookup_seq_all {A} (l : list A) :
  (fun i => l !! i) <$> seq 0 (length l) = Some <$> l.
Proof.
  apply list_eq. intros i. rewrite !list_lookup_fmap.
  destruct (l !! i) as [x|] eqn:E.
  - rewrite lookup_seq_lt by (by eapply lookup_lt_Some). cbn. by rewrite E.
  - apply lookup_ge_None in E. by rewrite lookup_seq_ge.
Qed.

Lemma map_Some_inj {A} (l1 l2 : list A) : map Some l1 = map Some l2 -> l1 = l2.
Proof.
  revert l2. induction l1 as [|x l1 IH]; intros [|y l2]; cbn; try done.
  intros [= -> H]. f_equal. by apply IH.
Qed.

Lemma linearization_calls (initial : T) calls sched :
  Permutation (map le_call (as_order (run_atomic sched initial calls))) calls.
Proof.
  destruct (run_atomic_inv initial calls sched) as [(Hcalls & _ & _ & _ & Hent & _) _].
  destruct (atomic_linearization initial calls sched) as (_ & _ & Hperm & _).
  set (st := run_atomic sched initial calls) in *.
  assert (Heq : Some <$> (le_call <$> as_order st)
                = (fun i => calls !! i) <$> (le_thread <$> as_order st)).
  { rewrite <- !list_fmap_compose. apply Forall_fmap_ext, Forall_forall.
    intros e He%list_elem_of_In. destruct (Hent e He) as (th & Hth & Hc & _).
    cbn. rewrite <- Hcalls, list_lookup_fmap, Hth. cbn. by rewrite Hc. }
  assert (Hp : Permutation (map Some (map le_call (as_order st))) (map Some calls)).
  { change (Permutation (Some <$> (le_call <$> as_order st)) (Some <$> calls)).
    rewrite Heq, <- lookup_seq_all. by apply fmap_Permutation. }
  apply Permutation_sym in Hp. apply Permutation_map_inv in Hp as (l3 & E & Hp).
  apply map_Some_inj in E. subst l3. by apply Permutation_sym.
Qed.

(** X13: when the operators of the concurrent invocations commute with one
    another (additions, maxima, bitwise or), the value the address holds once
    all have returned is the same under every interleaving: the one a single
    thread gets by making the calls one after the other. *)
Theorem atomicOp_commuting_final (initial : T) (calls : list (@invocation T))
    (sched : list nat) :
  (forall c1 c2 a, In c1 calls -> In c2 calls ->
     apply_inv c1 (apply_inv c2 a) = apply_inv c2 (apply_inv c1 a)) ->
  as_cell (run_atomic sched initial calls) = apply_all calls initial.
Proof.
  intros Hc.
  destruct (atomic_linearization initial calls sched) as (_ & _ & _ & _ & Hcell & _).
  cbv zeta in Hcell. rewrite Hcell.
  symmetry. apply apply_all_Permutation; [|done].
  apply Permutation_sym, linearization_calls.
Qed.

(** X14: the lock (or the critical section) is held exactly while a thread is
    between taking it and releasing it inside [atomicOp], at every moment of
    every interleaving; once all invocations have returned it is free. *)
Theorem atomicOp_releases_lock (initial : T) (calls : list (@invocation T))
    (sched : list nat) :
  (forall k i th,
     let s := run_atomic_steps k sched initial calls in
     as_threads s !! i = Some th ->
     (in_critical (at_pc th) = true <-> as_lock s = Some i)) /\
  as_lock (run_atomic sched initial calls) = None.
Proof.
  split.
  - intros k i th s Hth.
    destruct (prefix_inv initial calls k sched) as (_ & Hinv & _ & _ & _ & _ & Hown).
    fold s in Hinv, Hown. split.
    + intros Hc. pose proof (Hinv i th Hth) as [_ Hpc].
      destruct (at_pc th); try done; tauto.
    + intros Hl. destruct (Hown i Hl) as (th' & Hth' & Hc). congruence.
  - destruct (run_atomic_inv initial calls sched) as [(_ & _ & _ & _ & _ & _ & Hown) Hall].
    destruct (as_lock (run_atomic sched initial calls)) as [h|] eqn:E; [|done].
    destruct (Hown h eq_refl) as (th & Hth & Hc).
    destruct (Hall h th Hth) as (old & Hold). by rewrite Hold in Hc.
Qed.
End AtomicExtras.

Lemma atomicOp_commuting_final_witness :
  as_cell (run_atomic [1; 0; 2; 2]%nat 5
             [Invocation Z.add 3; Invocation Z.add (-7); Invocation Z.add 4]) = 5.
Proof.
  apply (atomicOp_commuting_final 5
           [Invocation Z.add 3; Invocation Z.add (-7); Invocation Z.add 4]).
  intros c1 c2 a H1 H2. cbn in H1, H2.
  destruct H1 as [<-|[<-|[<-|[]]]], H2 as [<-|[<-|[<-|[]]]]; unfold apply_inv; cbn; lia.
Defined.

(** ** The recursive default pitch in closed form *)

Lemma GetPitchBytesDefault_end M v i :
  i = Dim v -> MemViewTraits.GetPitchBytesDefault M v i = Some (view_sizeof_elem v mod M).
Proof.
  intros ->. rewrite MemViewTraits.GetPitchBytesDefault_equation_1.
  destruct (lt_eq_lt_dec (S (Dim v)) (Dim v)) as [[Hlt|Heq]|Hgt]; try lia.
  cbn. by rewrite Nat.eqb_refl.
Qed.

Lemma GetPitchBytesDefault_beyond M v i :
  (Dim v < i)%nat -> MemViewTraits.GetPitchBytesDefault M v i = None.
Proof.
  intros H. rewrite MemViewTraits.GetPitchBytesDefault_equation_1.
  destruct (lt_eq_lt_dec (S i) (Dim v)) as [[Hlt|Heq]|Hgt]; try lia.
  cbn. destruct (Nat.eqb_spec i (Dim v)); [lia|done].
Qed.

Lemma GetPitchBytesDefault_drop M v k i :
  0 < M -> (i + k = Dim v)%nat ->
  MemViewTraits.GetPitchBytesDefault M v i
  = Some ((view_sizeof_elem v * prodZ (drop i (view_extent v))) mod M).
Proof.
  intros HM. revert i. induction k as [|k IH]; intros i Hik.
  - rewrite GetPitchBytesDefault_end by lia. unfold Dim in Hik.
    rewrite drop_ge by lia. cbn. by rewrite Z.mul_1_r.
  - destruct (lookup_lt_is_Some_2 (view_extent v) i ltac:(unfold Dim in Hik; lia)) as [e He].
    rewrite (drop_S _ _ _ He). cbn [prodZ fold_right]. fold (prodZ (drop (S i) (view_extent v))).
    destruct k as [|k].
    + rewrite GetPitchBytesDefault_last by lia.
      unfold ViewTraitsMem.GetPitchBytes, getExtent. rewrite He.
      unfold Dim in Hik. rewrite drop_ge by lia. cbn. do 2 f_equal. lia.
    + rewrite GetPitchBytesDefault_below by lia. unfold getExtent. rewrite He.
      rewrite (IH (S i)) by lia. f_equal.
      rewrite Z.mul_mod_idemp_r by lia. f_equal. lia.
Qed.

(** X15: the recursive default pitch of dimension [i] is the size in bytes of
    everything from dimension [i] inwards: [sizeof(element)] times the
    product of the extents [i], [i+1], ..., in the arithmetic of the index
    type.  It is defined for the indices up to the dimension of a view of at
    least one dimension ([i = Dim] gives the size of one element) and for no
    other index. *)
Theorem GetPitchBytes_closed_form (M : Z) (v : View) (i : nat) :
  0 < M ->
  ((1 <= Dim v)%nat -> (i <= Dim v)%nat ->
     MemViewTraits.GetPitchBytes M i v
     = Some ((view_sizeof_elem v * prodZ (drop i (view_extent v))) mod M)) /\
  ((Dim v < i)%nat \/ Dim v = 0%nat -> MemViewTraits.GetPitchBytes M i v = None).
Proof.
  intros HM. unfold MemViewTraits.GetPitchBytes. split.
  - intros Hd Hi. destruct (Dim v) eqn:E; [lia|]. rewrite <- E in *.
    apply (GetPitchBytesDefault_drop M v (Dim v - i)); [done|lia].
  - intros [H| ->]; [|done]. destruct (Dim v) eqn:E; [done|]. rewrite <- E in *.
    by apply GetPitchBytesDefault_beyond.
Qed.

Lemma GetPitchBytes_closed_form_witness :
  MemViewTraits.GetPitchBytes (2 ^ 64) 0 view_2x3 = Some 24 /\
  MemViewTraits.GetPitchBytes (2 ^ 64) 2 view_2x3 = Some 4 /\
  MemViewTraits.GetPitchBytes (2 ^ 64) 3 view_2x3 = None.
Proof.
  split; [|split].
  - apply (GetPitchBytes_closed_form (2 ^ 64) view_2x3 0); cbn; lia.
  - apply (GetPitchBytes_closed_form (2 ^ 64) view_2x3 2); cbn; lia.
  - apply (GetPitchBytes_closed_form (2 ^ 64) view_2x3 3); [lia|]. left. cbn. lia.
Defined.

(** ** Printing a view *)

Lemma fold_left_None {A B} (f : B -> A -> option A) (l : list B) :
  fold_left (fun acc i => match acc with Some s => f i s | None => None end) l None = None.
Proof. induction l; cbn; done. Qed.

Lemma zrange_first n : 1 <= n -> exists r, zrange n = 0 :: r.
Proof.
  intros H. unfold zrange. destruct (Z.to_nat n) eqn:E; [lia|]. cbn. by eexists.
Qed.

Lemma for_idx_first_None {St} M lastIdx (body : Z -> St -> option St) s :
  0 < M -> 0 <= lastIdx -> body 0 s = None -> for_idx M lastIdx body s = None.
Proof.
  intros HM Hl Hb. unfold for_idx. destruct (lastIdx =? M - 1); [done|].
  destruct (zrange_first (lastIdx + 1)) as [r ->]; [lia|].
  cbn. rewrite Hb. apply fold_left_None.
Qed.

Lemma for_idx_inv {St} (I : Z -> St -> Prop) M lastIdx (body : Z -> St -> option St) s :
  0 <= lastIdx < M - 1 ->
  I 0 s ->
  (forall i s, 0 <= i <= lastIdx -> I i s -> exists s', body i s = Some s' /\ I (i + 1) s') ->
  exists s', for_idx M lastIdx body s = Some s' /\ I (lastIdx + 1) s'.
Proof.
  intros Hl H0 Hstep. unfold for_idx.
  destruct (Z.eqb_spec lastIdx (M - 1)) as [|Hne]; [lia|].
  assert (Hgen : forall n : nat, Z.of_nat n <= lastIdx + 1 ->
    exists s', fold_left (fun acc i => match acc with Some s => body i s | None => None end)
                 (zrange (Z.of_nat n)) (Some s) = Some s' /\ I (Z.of_nat n) s').
  { induction n as [|n IH]; intros Hn.
    - exists s. by split.
    - destruct IH as (s1 & Hs1 & HI1); [lia|].
      destruct (Hstep (Z.of_nat n) s1 ltac:(lia) HI1) as (s2 & Hs2 & HI2).
      exists s2. rewrite zrange_last by lia.
      replace (Z.of_nat (S n) - 1) with (Z.of_nat n) by lia.
      rewrite fold_left_app, Hs1. cbn. split; [done|].
      by replace (Z.of_nat (S n)) with (Z.of_nat n + 1) by lia. }
  destruct (Hgen (Z.to_nat (lastIdx + 1))) as (s' & Hs' & HI); [lia|].
  rewrite Z2Nat.id in Hs', HI by lia. by exists s'.
Qed.

Section PrintFacts.
Context {E : Type}.
Variable M : Z.
Variable v : View.
Variable pitchBytes : nat -> option Z.
Variable mem : Z -> option E.
Variables elementSeparator rowSeparator rowPrefix rowSuffix : string.

Lemma Print_print_zero_extent k d j ptr os :
  0 < M -> (d + k = Dim v)%nat -> (d <= j)%nat -> view_extent v !! j = Some 0 ->
  Print_print M v pitchBytes mem elementSeparator rowSeparator rowPrefix rowSuffix d ptr os
  = None.
Proof.
  intros HM. revert d ptr os. induction k as [|k IH]; intros d ptr os Hk Hj H0.
  { apply lookup_lt_Some in H0. unfold Dim in Hk. lia. }
  rewrite Print_print_equation_1.
  assert (Hwrap : (0 - 1) mod M = M - 1).
  { symmetry. apply Z.mod_unique_pos with (-1); lia. }
  destruct (lt_eq_lt_dec (S d) (Dim v)) as [[Hlt|Heq]|Hgt]; cbn; [| |lia].
  - destruct (pitchBytes (S d)) as [pitch|]; [|done].
    destruct (view_extent v !! d) as [e|] eqn:He; [|done].
    destruct (decide (j = d)) as [->|Hne].
    + assert (e = 0) as -> by congruence.
      unfold for_idx. rewrite Hwrap, Z.eqb_refl. done.
    + rewrite for_idx_first_None; [done|done|apply Z.mod_pos_bound; lia|].
      rewrite (IH (S d)); [done|lia|lia|done].
  - destruct (view_extent v !! d) as [e|] eqn:He; [|done].
    assert (j = d) as ->.
    { apply lookup_lt_Some in H0. unfold Dim in Heq. lia. }
    assert (e = 0) as -> by congruence.
    unfold for_idx. rewrite Hwrap, Z.eqb_refl. done.
Qed.

(** X16: a view with a zero extent in any dimension cannot be printed: at
    that dimension [extent - 1u] wraps around to the largest index, the loop
    condition [i <= lastIdx] never fails, and [print] gives no result,
    whatever the memory, the pitches and the separators. *)
Theorem print_zero_extent (ptrNative : Z) (os : list (token E)) :
  0 < M -> In 0 (view_extent v) ->
  print M v pitchBytes mem elementSeparator rowSeparator rowPrefix rowSuffix ptrNative os
  = None.
Proof.
  intros HM (j & Hj)%list_elem_of_In%list_elem_of_lookup. unfold print.
  apply (Print_print_zero_extent (Dim v) 0 j); [done|lia|lia|done].
Qed.
End PrintFacts.

Lemma print_zero_extent_witness :
  print (2 ^ 64) (MkView [2; 0] 4) (fun i => MemViewTraits.GetPitchBytes (2 ^ 64) i (MkView [2; 0] 4))
        (buffer 4096 4 ([] : list Z)) ", " "|" "[" "]" 4096 []
  = None.
Proof.
  apply print_zero_extent; [lia|]. cbn. tauto.
Defined.

Lemma elems_of_app {E} (l1 l2 : list (token E)) :
  elems_of (l1 ++ l2) = elems_of l1 ++ elems_of l2.
Proof. apply flat_map_app. Qed.

Lemma prodZ_pos l : Forall (fun e => 1 <= e) l -> 1 <= prodZ l.
Proof. unfold prodZ. induction 1 as [|e l He _ IH]; cbn; [lia|nia]. Qed.

Lemma prodZ_drop_S l d e : l !! d = Some e -> prodZ (drop d l) = e * prodZ (drop (S d) l).
Proof. intros H. by rewrite (drop_S _ _ _ H). Qed.

Lemma prodZ_drop_le l d : Forall (fun e => 1 <= e) l -> prodZ (drop d l) <= prodZ l.
Proof.
  intros H. revert d. induction H as [|e l He Hl IH]; intros [|d]; cbn; try lia.
  specialize (IH d). pose proof (prodZ_pos _ Hl). unfold prodZ in *. cbn. nia.
Qed.

Lemma buffer_lookup {E} base sizeofT (elems : list E) (n : nat) :
  1 <= sizeofT ->
  buffer base sizeofT elems (base + sizeofT * Z.of_nat n) = elems !! n.
Proof.
  intros Hs. unfold buffer.
  replace (base + sizeofT * Z.of_nat n - base) with (Z.of_nat n * sizeofT) by lia.
  rewrite Z.mod_mul, Z.div_mul, Nat2Z.id by lia.
  destruct (Z.leb_spec base (base + sizeofT * Z.of_nat n)); [done|nia].
Qed.

Section PrintContiguous.
Context {E : Type}.
Variable M : Z.
Variable v : View.
Variable base : Z.
Variable elems : list E.
Variables elementSeparator rowSeparator rowPrefix rowSuffix : string.
Hypothesis Hext : Forall (fun e => 1 <= e) (view_extent v).
Hypothesis Hsize : 1 <= view_sizeof_elem v.
Hypothesis Hfit : view_sizeof_elem v * prodZ (view_extent v) < M.

Lemma Print_print_contiguous k d (off : nat) os :
  (1 <= k)%nat -> (d + k = Dim v)%nat ->
  Z.of_nat off + prodZ (drop d (view_extent v)) <= Z.of_nat (length elems) ->
  exists out,
    Print_print M v (fun i => MemViewTraits.GetPitchBytes M i v)
      (buffer base (view_sizeof_elem v) elems)
      elementSeparator rowSeparator rowPrefix rowSuffix d
      (base + view_sizeof_elem v * Z.of_nat off) os = Some (os ++ out) /\
    elems_of out = take (Z.to_nat (prodZ (drop d (view_extent v)))) (drop off elems).
Proof.
  revert d off os. induction k as [|k IH]; intros d off os Hk Hdk Hlen; [lia|].
  destruct (lookup_lt_is_Some_2 (view_extent v) d ltac:(unfold Dim in Hdk; lia)) as [e He].
  pose proof (Forall_lookup_1 _ _ _ _ Hext He) as He1. cbv beta in He1.
  pose proof (prodZ_drop_S _ _ _ He) as Hc.
  pose proof (prodZ_pos _ (Forall_drop _ (S d) _ Hext)) as Hc'.
  pose proof (prodZ_drop_le _ d Hext) as Hle.
  set (c := prodZ (drop d (view_extent v))) in *.
  set (c' := prodZ (drop (S d) (view_extent v))) in *.
  set (sz := view_sizeof_elem v) in *.
  assert (HeM : 0 <= e - 1 < M - 1) by nia.
  assert (Hlast : (e - 1) mod M = e - 1) by (apply Z.mod_small; lia).
  rewrite Print_print_equation_1.
  destruct (lt_eq_lt_dec (S d) (Dim v)) as [[Hlt|Heq]|Hgt]; cbn; [| |lia].
  - (* the general template *)
    assert (Hp : MemViewTraits.GetPitchBytes M (S d) v = Some (sz * c')).
    { unfold MemViewTraits.GetPitchBytes. destruct (Dim v) eqn:ED; [lia|]. rewrite <- ED in *.
      rewrite (GetPitchBytesDefault_drop M v k (S d)) by lia.
      fold sz c'. f_equal. apply Z.mod_small. nia. }
    rewrite Hp, He, Hlast.
    destruct (for_idx_inv
      (fun i os' => exists out, os' = (os ++ [TStr rowPrefix]) ++ out /\
         elems_of out = take (Z.to_nat (i * c')) (drop off elems))
      M (e - 1)
      (fun i os0 =>
         match Print_print M v (fun i0 => MemViewTraits.GetPitchBytes M i0 v)
                 (buffer base sz elems) elementSeparator rowSeparator rowPrefix rowSuffix
                 (S d) (base + sz * Z.of_nat off + (i * (sz * c')) mod M) os0 with
         | Some os' => Some (if i =? e - 1 then os' else os' ++ [TStr rowSeparator])
         | None => None
         end)
      (os ++ [TStr rowPrefix])) as (os2 & Hrun & out & -> & Hout).
    + done.
    + exists []. by rewrite app_nil_r.
    + intros i os1 Hi (out & -> & Hout).
      assert (Hic : 0 <= i * c' <= c - c') by nia.
      assert (Hsz : 0 <= sz * (i * c') <= sz * (c - c')) by nia.
      assert (Hsc : sz * c <= sz * prodZ (view_extent v)) by nia.
      assert (Hsc' : 1 <= sz * c') by nia.
      assert (Hoff : (i * (sz * c')) mod M = sz * (i * c')).
      { replace (i * (sz * c')) with (sz * (i * c')) by lia. apply Z.mod_small. lia. }
      rewrite Hoff.
      replace (base + sz * Z.of_nat off + sz * (i * c'))
        with (base + sz * Z.of_nat (off + Z.to_nat (i * c'))) by nia.
      destruct (IH (S d) (off + Z.to_nat (i * c'))%nat ((os ++ [TStr rowPrefix]) ++ out))
        as (outc & Hchild & Houtc); [lia|lia|fold c'; nia|].
      rewrite Hchild. fold c' in Houtc.
      eexists. split; [reflexivity|].
      exists (out ++ outc ++ (if i =? e - 1 then [] else [TStr rowSeparator])).
      split; [destruct (i =? e - 1); by rewrite <- ?app_assoc, ?app_nil_r|].
      rewrite !elems_of_app, Hout, Houtc.
      replace (elems_of (if i =? e - 1 then [] else [TStr rowSeparator])) with (@nil E)
        by (by destruct (i =? e - 1)).
      rewrite app_nil_r, <- drop_drop, take_take_drop. f_equal. nia.
    + rewrite Hrun. eexists. split; [by rewrite <- !app_assoc|].
      rewrite !elems_of_app, Hout. cbn. rewrite app_nil_r. do 2 f_equal. lia.
  - (* the specialisation for the last dimension *)
    assert (Hc1 : c' = 1).
    { unfold c'. unfold Dim in Heq. by rewrite drop_ge by lia. }
    rewrite He, Hlast. fold sz.
    destruct (for_idx_inv
      (fun i os' => exists out, os' = (os ++ [TStr rowPrefix]) ++ out /\
         elems_of out = take (Z.to_nat i) (drop off elems))
      M (e - 1)
      (fun i os0 =>
         match buffer base sz elems (base + sz * Z.of_nat off + i * sz) with
         | Some x => Some (if i =? e - 1 then os0 ++ [TElem x]
                           else os0 ++ [TElem x; TStr elementSeparator])
         | None => None
         end)
      (os ++ [TStr rowPrefix])) as (os2 & Hrun & out & -> & Hout).
    + done.
    + exists []. by rewrite app_nil_r.
    + intros i os1 Hi (out & -> & Hout).
      replace (base + sz * Z.of_nat off + i * sz)
        with (base + sz * Z.of_nat (off + Z.to_nat i)) by nia.
      rewrite buffer_lookup by done.
      destruct (lookup_lt_is_Some_2 elems (off + Z.to_nat i)) as [x Hx]; [nia|].
      rewrite Hx. eexists. split; [reflexivity|].
      exists (out ++ TElem x :: (if i =? e - 1 then [] else [TStr elementSeparator])).
      split; [destruct (i =? e - 1); by rewrite <- ?app_assoc|].
      rewrite elems_of_app, Hout.
      replace (elems_of (TElem x :: (if i =? e - 1 then [] else [TStr elementSeparator])))
        with [x] by (by destruct (i =? e - 1)).
      replace (Z.to_nat (i + 1)) with (S (Z.to_nat i)) by lia.
      symmetry. apply take_S_r. by rewrite lookup_drop.
    + rewrite Hrun. eexists. split; [by rewrite <- !app_assoc|].
      rewrite !elems_of_app, Hout. cbn. rewrite app_nil_r. do 2 f_equal. lia.
Qed.

(** X17: printing a view that lies contiguously in memory, with the default
    pitches, reads its elements in memory order, each exactly once, whatever
    the number of dimensions: the elements inserted into the stream are the
    elements of the buffer from first to last. *)
Theorem print_row_major (os : list (token E)) :
  (1 <= Dim v)%nat ->
  Z.of_nat (length elems) = prodZ (view_extent v) ->
  exists out,
    print M v (fun i => MemViewTraits.GetPitchBytes M i v)
      (buffer base (view_sizeof_elem v) elems)
      elementSeparator rowSeparator rowPrefix rowSuffix base os = Some (os ++ out) /\
    elems_of out = elems.
Proof.
  intros Hd Hlen. unfold print.
  destruct (Print_print_contiguous (Dim v) 0 0 os) as (out & Hp & Hout); [done|done| |].
  - change (drop 0 (view_extent v)) with (view_extent v). lia.
  - exists out. replace (base + view_sizeof_elem v * Z.of_nat 0) with base in Hp by lia.
    split; [done|]. rewrite Hout.
    change (drop 0 (view_extent v)) with (view_extent v).
    change (drop 0 elems) with elems.
    rewrite <- Hlen, Nat2Z.id. apply firstn_all.
Qed.
End PrintContiguous.

Lemma separated_snoc {E} sep (l : list E) x :
  separated sep (l ++ [x])
  = flat_map (fun y => [TElem y; TStr sep]) l ++ [TElem x].
Proof.
  induction l as [|a l IH]; [done|].
  cbn [app flat_map]. rewrite <- IH. by destruct l.
Qed.

Section PrintRow.
Context {E : Type}.
Variable M : Z.
Variable v : View.
Variable pitchBytes : nat -> option Z.
Variable base : Z.
Variable elems : list E.
Variables elementSeparator rowSeparator rowPrefix rowSuffix : string.

(** X18: a one-dimensional view of [e >= 1] elements is printed as the row
    prefix, the elements with the element separator between each two of them
    (none after the last), and the row suffix: [[1, 2, 3]] with the default
    separators.  The row separator is not used. *)
Theorem print_one_dimension (e : Z) (os : list (token E)) :
  view_extent v = [e] -> 1 <= e < M -> 1 <= view_sizeof_elem v ->
  Z.of_nat (length elems) = e ->
  print M v pitchBytes (buffer base (view_sizeof_elem v) elems)
    elementSeparator rowSeparator rowPrefix rowSuffix base os
  = Some (os ++ [TStr rowPrefix] ++ separated elementSeparator elems ++ [TStr rowSuffix]).
Proof.
  intros Hv He Hs Hlen. unfold print. rewrite Print_print_equation_1.
  assert (HD : Dim v = 1%nat) by (unfold Dim; by rewrite Hv).
  destruct (lt_eq_lt_dec 1 (Dim v)) as [[Hlt|Heq]|Hgt]; [lia| |lia].
  cbn. rewrite Hv. cbn.
  assert (Hlast : (e - 1) mod M = e - 1) by (apply Z.mod_small; lia).
  rewrite Hlast.
  destruct (for_idx_inv
    (fun i os' =>
       os' = (os ++ [TStr rowPrefix])
             ++ (if i <=? e - 1
                 then flat_map (fun y => [TElem y; TStr elementSeparator])
                               (take (Z.to_nat i) elems)
                 else separated elementSeparator elems))
    M (e - 1)
    (fun i os0 =>
       match buffer base (view_sizeof_elem v) elems (base + i * view_sizeof_elem v) with
       | Some x => Some (if i =? e - 1 then os0 ++ [TElem x]
                         else os0 ++ [TElem x; TStr elementSeparator])
       | None => None
       end)
    (os ++ [TStr rowPrefix])) as (os2 & Hrun & Hos2).
  - lia.
  - destruct (Z.leb_spec 0 (e - 1)); [|lia]. cbn. by rewrite app_nil_r.
  - intros i os1 Hi ->.
    replace (base + i * view_sizeof_elem v)
      with (base + view_sizeof_elem v * Z.of_nat (Z.to_nat i)) by lia.
    rewrite buffer_lookup by done.
    destruct (lookup_lt_is_Some_2 elems (Z.to_nat i)) as [x Hx]; [lia|].
    rewrite Hx. eexists. split; [reflexivity|].
    destruct (Z.leb_spec i (e - 1)); [|lia].
    pose proof (take_S_r _ _ _ Hx) as Htake.
    replace (S (Z.to_nat i)) with (Z.to_nat (i + 1)) in Htake by lia.
    destruct (Z.eqb_spec i (e - 1)) as [->|Hne].
    + destruct (Z.leb_spec (e - 1 + 1) (e - 1)); [lia|].
      rewrite <- app_assoc. f_equal. rewrite <- separated_snoc, <- Htake.
      f_equal. apply firstn_all2. lia.
    + destruct (Z.leb_spec (i + 1) (e - 1)); [|lia].
      rewrite <- app_assoc. f_equal. rewrite Htake, flat_map_app. cbn. done.
  - rewrite Hrun, Hos2. destruct (Z.leb_spec (e - 1 + 1) (e - 1)); [lia|].
    by rewrite <- !app_assoc.
Qed.
End PrintRow.

Lemma print_row_major_witness :
  exists out,
    print (2 ^ 64) view_2x3 (fun i => MemViewTraits.GetPitchBytes (2 ^ 64) i view_2x3)
      (buffer 4096 4 [10; 11; 12; 13; 14; 15]) ", " "|" "[" "]" 4096 [] = Some ([] ++ out) /\
    elems_of out = [10; 11; 12; 13; 14; 15].
Proof.
  apply (print_row_major (2 ^ 64) view_2x3 4096 [10; 11; 12; 13; 14; 15]).
  - repeat constructor; cbn; lia.
  - cbn. lia.
  - cbn. lia.
  - cbn. lia.
  - reflexivity.
Defined.

Lemma print_one_dimension_witness :
  print (2 ^ 64) (MkView [3] 4) (fun _ => None) (buffer 4096 4 [1; 2; 3])
    ", " "|" "[" "]" 4096 []
  = Some [TStr "["; TElem 1; TStr ", "; TElem 2; TStr ", "; TElem 3; TStr "]"].
Proof.
  apply (print_one_dimension (2 ^ 64) (MkView [3] 4) (fun _ => None) 4096 [1; 2; 3]
           ", " "|" "[" "]" 3 []).
  - reflexivity.
  - lia.
  - cbn. lia.
  - reflexivity.
Defined.

(** ** Pitches in elements *)

(** X19: when the pitch in bytes of dimension [i] fits both the index type
    and the result type, [getPitchElements] gives back the extent of the
    dimension, with or without [NDEBUG]: its assertion holds. *)
Theorem getPitchElements_extent (NDEBUG : bool) (M MVal : Z) (i : nat) (v : View) (e : Z) :
  getExtent i v = Some e -> 0 <= e -> 1 <= view_sizeof_elem v ->
  e * view_sizeof_elem v < M -> e * view_sizeof_elem v < MVal ->
  MemView.getPitchElements NDEBUG M MVal i v = Some (Value e).
Proof.
  intros He H0 Hs HM HV.
  unfold MemView.getPitchElements, MemView.getPitchBytes, ViewTraitsMem.GetPitchBytes.
  rewrite He.
  rewrite (Z.mod_small (e * view_sizeof_elem v) M) by nia.
  rewrite (Z.mod_small (e * view_sizeof_elem v) MVal) by nia.
  rewrite Z.mod_mul, Z.div_mul by lia. cbn. by rewrite orb_true_r.
Qed.

Lemma getPitchElements_extent_witness :
  MemView.getPitchElements false (2 ^ 64) (2 ^ 32) 1 view_2x3 = Some (Value 3).
Proof.
  apply (getPitchElements_extent false (2 ^ 64) (2 ^ 32) 1 view_2x3 3); cbn; (reflexivity || lia).
Defined.

(** X20: when [sizeof(element)] divides the moduli of the index type and of
    the result type (an element size that is a power of two), the assertion
    of [getPitchElements] holds for every extent, also when the pitch in
    bytes wrapped around or was cut by the cast. *)
Theorem getPitchElements_assertion_holds (M MVal : Z) (i : nat) (v : View) (e : Z) :
  getExtent i v = Some e ->
  0 < M -> 0 < MVal -> 0 < view_sizeof_elem v ->
  (view_sizeof_elem v | M) -> (view_sizeof_elem v | MVal) ->
  MemView.getPitchElements false M MVal i v
  = Some (Value (((e * view_sizeof_elem v) mod M) mod MVal / view_sizeof_elem v)).
Proof.
  intros He HM HV Hs Ha Hb.
  unfold MemView.getPitchElements, MemView.getPitchBytes, ViewTraitsMem.GetPitchBytes.
  rewrite He. cbn [orb].
  set (s := view_sizeof_elem v) in *.
  assert (Hmod : forall x N, 0 < N -> (s | N) -> (s | x) -> (s | x mod N)).
  { intros x N HN HsN Hx. rewrite Z.mod_eq by lia.
    apply Z.divide_sub_r; [done|]. by apply Z.divide_mul_l. }
  assert (Hdiv : (((e * s) mod M) mod MVal) mod s = 0).
  { apply Z.mod_divide; [lia|]. apply Hmod; [done|done|].
    apply Hmod; [done|done|]. apply Z.divide_factor_r. }
  rewrite Hdiv. done.
Qed.

Lemma getPitchElements_assertion_holds_witness :
  MemView.getPitchElements false (2 ^ 8) (2 ^ 8) 0 (MkView [100; 3] 4) = Some (Value 36).
Proof.
  apply (getPitchElements_assertion_holds (2 ^ 8) (2 ^ 8) 0 (MkView [100; 3] 4) 100).
  - reflexivity.
  - lia.
  - lia.
  - cbn. lia.
  - exists 64. reflexivity.
  - exists 64. reflexivity.
Defined.
